(** * arenacheck: the provenance-tracing analyzer of safearena

    A shallow embedding of [cmd/arenacheck/analyzer_final.go] (the analyzer
    [AnalyzerFinal2]) and of the earlier [cmd/arenacheck/analyzer.go]
    ([AnalyzerFinal]), with the properties of the provenance resolver, the
    escape checks and the use-after-free sweep.

    SSA values and instructions are Go pointers: they are modelled as
    identities ([positive]) into a finite heap of objects, so that value
    graphs with cycles (phi nodes in loops) are ordinary inputs. *)

From Stdlib Require Import String Ascii.
From stdpp Require Import gmap strings list fin_maps.

Set Warnings "-clear-no-such-hyp".

(** ** The IR the analyzer consumes (go/ssa and go/types, as used) *)

(** [ssa.Value] and [ssa.Instruction] are interfaces holding pointers; a
    value-defining instruction is both. One identity space serves both. *)
Definition Value := positive.

(** [token.Pos]. *)
Definition Pos := nat.

(** [types.Type], with the two dynamic types [isPointerType] matches on and
    some of the others. *)
Inductive Type_ :=
| TPointer (Elem : Type_)
| TNamed (Underlying : Type_)
| TBasic (name : string)
| TStruct
| TSlice (Elem : Type_)
| TInterface
| TInvalid.

(** The static callee of a call: what [callee.String()] and [callee.Name()]
    return. *)
Record Callee := mkCallee { String_ : string; Name : string }.

(** [ssa.CallCommon]: the called value, the arguments, and the result of
    [StaticCallee()] ([None] is nil: a dynamic call). *)
Record CallCommon := mkCall {
  Fn : Value;
  Args : list Value;
  StaticCallee : option Callee
}.

(** The dynamic type of an SSA object, with the fields the analyzer reads.
    [Other] is every other value or instruction; it carries the result of
    its [Operands] method ([None] is a nil operand). *)
Inductive Node :=
| Call (call : CallCommon)
| UnOp (X : Value)
| FieldAddr (X : Value)
| IndexAddr (X Index : Value)
| Phi (Edges : list Value)
| MakeInterface (X : Value)
| Global
| Store (Addr Val : Value)
| Return (Results : list Value)
| Other (rands : list (option Value)).

Record Object := mkObject {
  node : Node;
  Type_of : Type_;   (* Type() *)
  Pos_of : Pos       (* Pos() *)
}.

(** The objects of one analysis run. An identity outside the heap is nil or
    an object of no interest (it matches no case of a type switch). *)
Abbreviation Heap := (gmap Value Object).

Record BasicBlock := mkBlock { Instrs : list Value }.

(** [fn.Blocks] may be nil ([None]). *)
Record Function := mkFunction { Blocks : option (list BasicBlock) }.

(** [instr.Operands(nil)] of go/ssa, dereferenced: [Some v] for an operand
    slot holding [v], [None] for a slot holding nil. *)
Definition Operands (n : Node) : list (option Value) :=
  match n with
  | Call c => Some (Fn c) :: map Some (Args c)
  | UnOp X => [Some X]
  | FieldAddr X => [Some X]
  | IndexAddr X Index => [Some X; Some Index]
  | Phi Edges => map Some Edges
  | MakeInterface X => [Some X]
  | Global => []
  | Store Addr Val => [Some Addr; Some Val]
  | Return Results => map Some Results
  | Other rands => rands
  end.

(** [strings.Contains]. *)
Fixpoint Contains (s substr : string) : bool :=
  if String.prefix substr s then true
  else match s with
       | EmptyString => false
       | String _ s' => Contains s' substr
       end.

(** ** analyzer_final.go *)

Record arenaInfo := mkArenaInfo { value : Value }.

Record allocInfo := mkAllocInfo {
  arena : arenaInfo;
  avalue : Value;
  allocPos : Pos
}.

(** The three [pass.Reportf] calls of [checkFunctionFinal2]; each message
    embeds the position of the allocation. *)
Inductive Kind := EscapesViaReturn | EscapesToGlobal | UseAfterFree.

Record Diagnostic := mkDiag { dPos : Pos; dKind : Kind; dAllocPos : Pos }.

Global Instance Kind_eq_dec : EqDecision Kind.
Proof. solve_decision. Defined.

Fixpoint isPointerType (t : Type_) : bool :=
  match t with
  | TPointer _ => true
  | TNamed u => isPointerType u
  | _ => false
  end.

(** The [for] loop over the edges of a phi: the first edge that resolves
    wins, and the visited set is shared by all the calls. [None] is a
    recursion that ran out of fuel. *)
Fixpoint tryEdges {A} (rec : Value → gset Value → option (option A * gset Value))
    (edges : list Value) (visited : gset Value) : option (option A * gset Value) :=
  match edges with
  | [] => Some (None, visited)
  | edge :: rest =>
      match rec edge visited with
      | None => None
      | Some (Some alloc, visited') => Some (Some alloc, visited')
      | Some (None, visited') => tryEdges rec rest visited'
      end
  end.

Section Resolver.
Variable heap : Heap.
Variable allocations : gmap Value allocInfo.
Variable storesTo : gmap Value Value.

Definition shape (val : Value) : option Node := node <$> heap !! val.

  (** [findAllocationRec]. The map [visited] is mutated in place by the Go
      code: it is threaded through and returned. [fuel] bounds the depth
      of the recursion; [findAllocationRec_terminates] shows that the
      size of the heap is always enough. *)
Fixpoint findAllocationRec (fuel : nat) (val : Value) (visited : gset Value)
      : option (option allocInfo * gset Value) :=
    match fuel with
    | O => None
    | S fuel =>
        if decide (val ∈ visited) then Some (None, visited)
        else
          let visited := {[val]} ∪ visited in
          match allocations !! val with
          | Some alloc => Some (Some alloc, visited)
          | None =>
              match shape val with
              | Some (UnOp operand) =>
                  match storesTo !! operand with
                  | Some stored =>
                      match findAllocationRec fuel stored visited with
                      | None => None
                      | Some (Some alloc, visited') => Some (Some alloc, visited')
                      | Some (None, visited') => findAllocationRec fuel operand visited'
                      end
                  | None => findAllocationRec fuel operand visited
                  end
              | Some (FieldAddr X) => findAllocationRec fuel X visited
              | Some (IndexAddr X _) => findAllocationRec fuel X visited
              | Some (Phi Edges) => tryEdges (findAllocationRec fuel) Edges visited
              | Some (MakeInterface X) => findAllocationRec fuel X visited
              | _ => Some (None, visited)
              end
          end
    end.

  (** [findAllocation]: a fresh visited map for every query. *)
Definition findAllocation (val : Value) : option allocInfo :=
    match findAllocationRec (S (size heap)) val ∅ with
    | Some (r, _) => r
    | None => None
    end.
End Resolver.

(** The four maps built by the first pass of [checkFunctionFinal2]. *)
Record Tracking := mkTracking {
  arenas : gmap Value arenaInfo;
  allocations : gmap Value allocInfo;
  storesTo : gmap Value Value;      (* addr -> value *)
  freeInstrs : gmap Value Value     (* instruction -> arena *)
}.

Definition noTracking : Tracking := mkTracking ∅ ∅ ∅ ∅.

Section Analyzer.
Variable heap : Heap.

Definition posOf (v : Value) : Pos := default 0 (Pos_of <$> heap !! v).
Definition typeOf (v : Value) : Type_ := default TInvalid (Type_of <$> heap !! v).

  (** The three name tests of the first pass, applied to a call. *)
Definition trackNewArena (call : Value) (callee : Callee)
      (ars : gmap Value arenaInfo) : gmap Value arenaInfo :=
    if Contains (String_ callee) "arena.NewArena"%string
    then <[call := mkArenaInfo call]> ars else ars.

Definition trackNew (call : Value) (c : CallCommon) (callee : Callee)
      (ars : gmap Value arenaInfo) (als : gmap Value allocInfo) : gmap Value allocInfo :=
    if Contains (String_ callee) "arena.New["%string && bool_decide (0 < length (Args c))
    then match Args c with
         | arenaArg :: _ =>
             match ars !! arenaArg with
             | Some arenaInfo => <[call := mkAllocInfo arenaInfo call (posOf call)]> als
             | None => als
             end
         | [] => als
         end
    else als.

Definition trackFree (call : Value) (c : CallCommon) (callee : Callee)
      (ars : gmap Value arenaInfo) (frees : gmap Value Value) : gmap Value Value :=
    if Contains (String_ callee) ".Free"%string
       || (String.eqb (Name callee) "Free"%string && bool_decide (0 < length (Args c)))
    then match Args c with
         | arenaArg :: _ =>
             match ars !! arenaArg with
             | Some _ => <[call := arenaArg]> frees
             | None => frees
             end
         | [] => frees
         end
    else frees.

  (** The body of the inner loop of the first pass. *)
Definition trackInstr (t : Tracking) (instr : Value) : Tracking :=
    match shape heap instr with
    | Some (Call c) =>
        match StaticCallee c with
        | None => t   (* continue *)
        | Some callee =>
            let ars := trackNewArena instr callee (arenas t) in
            mkTracking ars
                       (trackNew instr c callee ars (allocations t))
                       (storesTo t)
                       (trackFree instr c callee ars (freeInstrs t))
        end
    | Some (Store Addr Val) =>
        mkTracking (arenas t) (allocations t) (<[Addr := Val]> (storesTo t)) (freeInstrs t)
    | _ => t
    end.

  (** The instructions of a block list in iteration order. *)
Definition stream (blocks : list BasicBlock) : list Value :=
    concat (map Instrs blocks).

  (** First pass: find arenas, allocations, stores and Free() calls. *)
Definition firstPass (blocks : list BasicBlock) : Tracking :=
    foldl trackInstr noTracking (stream blocks).

Section SecondPass.
Variable t : Tracking.

Definition resolve (val : Value) : option allocInfo :=
      findAllocation heap (allocations t) (storesTo t) val.

    (** The operand loop of [checkUseAfterFree]: nil operands are skipped,
        and the first offending operand reports and returns. *)
Fixpoint checkOperands (pos : Pos) (freedArenas : gset Value)
        (rands : list (option Value)) : list Diagnostic :=
      match rands with
      | [] => []
      | None :: rest => checkOperands pos freedArenas rest
      | Some operand :: rest =>
          match resolve operand with
          | Some alloc =>
              if decide (value (arena alloc) ∈ freedArenas)
              then [mkDiag pos UseAfterFree (allocPos alloc)]
              else checkOperands pos freedArenas rest
          | None => checkOperands pos freedArenas rest
          end
      end.

Definition operandsOf (instr : Value) : list (option Value) :=
      default [] (Operands <$> shape heap instr).

Definition checkUseAfterFree (instr : Value) (freedArenas : gset Value)
        : list Diagnostic :=
      checkOperands (posOf instr) freedArenas (operandsOf instr).

    (** Check returns: one report per result that resolves and has a
        pointer type. *)
Definition checkResult (pos : Pos) (result : Value) : list Diagnostic :=
      match resolve result with
      | Some alloc =>
          if isPointerType (typeOf result)
          then [mkDiag pos EscapesViaReturn (allocPos alloc)]
          else []
      | None => []
      end.

Definition checkReturn (instr : Value) : list Diagnostic :=
      match shape heap instr with
      | Some (Return Results) => flat_map (checkResult (posOf instr)) Results
      | _ => []
      end.

Definition isGlobalVar (val : Value) : bool :=
      match shape heap val with
      | Some Global => true
      | _ => false
      end.

    (** Check global stores. *)
Definition checkGlobalStore (instr : Value) : list Diagnostic :=
      match shape heap instr with
      | Some (Store Addr Val) =>
          if isGlobalVar Addr
          then match resolve Val with
               | Some alloc => [mkDiag (posOf instr) EscapesToGlobal (allocPos alloc)]
               | None => []
               end
          else []
      | _ => []
      end.

    (** Track when arenas are freed. *)
Definition markFreed (freedArenas : gset Value) (instr : Value) : gset Value :=
      match freeInstrs t !! instr with
      | Some arena => {[arena]} ∪ freedArenas
      | None => freedArenas
      end.

    (** What the body of the inner loop of the second pass reports at
        [instr], given the arenas freed so far in the block ([instr]
        included). *)
Definition checkInstr (freedArenas : gset Value) (instr : Value) : list Diagnostic :=
      (if decide (freedArenas = ∅) then [] else checkUseAfterFree instr freedArenas)
      ++ checkReturn instr
      ++ checkGlobalStore instr.

    (** The inner loop of the second pass. *)
Fixpoint sweep (freedArenas : gset Value) (instrs : list Value) : list Diagnostic :=
      match instrs with
      | [] => []
      | instr :: rest =>
          let freedArenas := markFreed freedArenas instr in
          checkInstr freedArenas instr ++ sweep freedArenas rest
      end.

    (** One iteration of the outer loop: [freedArenas] starts empty. *)
Definition checkBlock (block : BasicBlock) : list Diagnostic :=
      sweep ∅ (Instrs block).
End SecondPass.

  (** [checkFunctionFinal2], on the block list of a function; the result
      is what it reports, in order. *)
Definition checkFunctionFinal2 (blocks : list BasicBlock) : list Diagnostic :=
    flat_map (checkBlock (firstPass blocks)) blocks.

  (** [runFinal2]: nil functions and functions without blocks are skipped. *)
Definition runFinal2 (SrcFuncs : list (option Function)) : list Diagnostic :=
    flat_map (fun fn =>
      match fn with
      | None => []
      | Some f =>
          match Blocks f with
          | None => []
          | Some blocks => checkFunctionFinal2 blocks
          end
      end) SrcFuncs.
End Analyzer.

(** ** analyzer.go: the earlier analyzer [AnalyzerFinal] *)

(** Its two reports carry no allocation site. *)
Inductive Kind1 := MayEscapeViaReturn | MayEscapeToGlobal.

Record Report := mkReport { rPos : Pos; rKind : Kind1 }.

(** The [for] loop over the edges of a phi in [tracesToArenaAlloc]. *)
Fixpoint anyEdge (rec : Value → gset Value → option (bool * gset Value))
    (edges : list Value) (visited : gset Value) : option (bool * gset Value) :=
  match edges with
  | [] => Some (false, visited)
  | edge :: rest =>
      match rec edge visited with
      | None => None
      | Some (true, visited') => Some (true, visited')
      | Some (false, visited') => anyEdge rec rest visited'
      end
  end.

Section Analyzer1.
Variable heap : Heap.

Section Traces.
Variable allocToArena : gmap Value Value.

Fixpoint tracesToArenaAlloc (fuel : nat) (val : Value) (visited : gset Value)
    : option (bool * gset Value) :=
  match fuel with
  | O => None
  | S fuel =>
      if decide (val ∈ visited) then Some (false, visited)
      else
        let visited := {[val]} ∪ visited in
        match allocToArena !! val with
        | Some _ => Some (true, visited)
        | None =>
            match shape heap val with
            | Some (UnOp X) => tracesToArenaAlloc fuel X visited
            | Some (FieldAddr X) => tracesToArenaAlloc fuel X visited
            | Some (IndexAddr X _) => tracesToArenaAlloc fuel X visited
            | Some (Phi Edges) => anyEdge (tracesToArenaAlloc fuel) Edges visited
            | _ => Some (false, visited)
            end
        end
  end.

(** [escapesViaReturn] and [escapesViaStore] have the same body. *)
Definition escapesViaReturn (val : Value) : bool :=
  match allocToArena !! val with
  | Some _ => true
  | None =>
      match tracesToArenaAlloc (S (size heap)) val ∅ with
      | Some (b, _) => b
      | None => false
      end
  end.

Definition escapesViaStore (val : Value) : bool :=
  match allocToArena !! val with
  | Some _ => true
  | None =>
      match tracesToArenaAlloc (S (size heap)) val ∅ with
      | Some (b, _) => b
      | None => false
      end
  end.
End Traces.

(** The maps of the first pass of [checkFunctionFinal]: [arenas] and
    [allocToArena]. *)
Definition trackInstr1 (t : gset Value * gmap Value Value) (instr : Value)
    : gset Value * gmap Value Value :=
  match shape heap instr with
  | Some (Call c) =>
      match StaticCallee c with
      | None => t
      | Some callee =>
          let ars := if Contains (String_ callee) "arena.NewArena"%string
                     then {[instr]} ∪ t.1 else t.1 in
          let als := if Contains (String_ callee) "arena.New["%string
                        && bool_decide (0 < length (Args c))
                     then match Args c with
                          | arenaArg :: _ => <[instr := arenaArg]> t.2
                          | [] => t.2
                          end
                     else t.2 in
          (ars, als)
      end
  | _ => t
  end.

Definition firstPass1 (blocks : list BasicBlock) : gset Value * gmap Value Value :=
  foldl trackInstr1 (∅, ∅) (stream blocks).

Definition checkInstr1 (allocToArena : gmap Value Value) (instr : Value) : list Report :=
  (match shape heap instr with
   | Some (Return Results) =>
       flat_map (fun result =>
         if escapesViaReturn allocToArena result
         then [mkReport (posOf heap instr) MayEscapeViaReturn] else []) Results
   | _ => []
   end)
  ++
  (match shape heap instr with
   | Some (Store Addr Val) =>
       if isGlobalVar heap Addr
       then if escapesViaStore allocToArena Val
            then [mkReport (posOf heap instr) MayEscapeToGlobal] else []
       else []
   | _ => []
   end).

Definition checkFunctionFinal (blocks : list BasicBlock) : list Report :=
  flat_map (checkInstr1 (firstPass1 blocks).2) (stream blocks).

Definition runFinal (SrcFuncs : list (option Function)) : list Report :=
  flat_map (fun fn =>
    match fn with
    | None => []
    | Some f =>
        match Blocks f with
        | None => []
        | Some blocks => checkFunctionFinal blocks
        end
    end) SrcFuncs.
End Analyzer1.

(** ** Depth-first search with a visited set

    Both resolvers ([findAllocationRec] and the earlier
    [tracesToArenaAlloc]) are a depth-first search of the value graph that
    stops at the first hit. The search is studied once, over an arbitrary
    successor function. *)
Section DFS.
Context {A : Type}.
Variable hit : Value → option A.
Variable succs : Value → list Value.

Fixpoint dfs (fuel : nat) (v : Value) (vis : gset Value)
    : option (option A * gset Value) :=
  match fuel with
  | O => None
  | S fuel =>
      if decide (v ∈ vis) then Some (None, vis)
      else
        let vis := {[v]} ∪ vis in
        match hit v with
        | Some a => Some (Some a, vis)
        | None => tryEdges (dfs fuel) (succs v) vis
        end
  end.

Definition edge (u w : Value) : Prop := w ∈ succs u.
Definition reach : Value → Value → Prop := rtc edge.

(** A visited set is closed, up to the values still on the call stack
    ([gray]), when every successor of a finished value is visited. *)
Definition closed (gray vis : gset Value) : Prop :=
  ∀ u w, u ∈ vis → u ∉ gray → edge u w → w ∈ vis.

Definition nohit (vis : gset Value) : Prop :=
  ∀ u, u ∈ vis → hit u = None.
End DFS.

(** The values [findAllocationRec] recurses into, in order: for a load, the
    last value stored to the operand (if any) and then the operand. *)
Definition provSuccs (heap : Heap) (storesTo : gmap Value Value) (val : Value)
    : list Value :=
  match shape heap val with
  | Some (UnOp operand) =>
      match storesTo !! operand with
      | Some stored => [stored; operand]
      | None => [operand]
      end
  | Some (FieldAddr X) => [X]
  | Some (IndexAddr X _) => [X]
  | Some (Phi Edges) => Edges
  | Some (MakeInterface X) => [X]
  | _ => []
  end.

(** The same for [tracesToArenaAlloc]: no store map, no interface case. *)
Definition provSuccs1 (heap : Heap) (val : Value) : list Value :=
  match shape heap val with
  | Some (UnOp X) => [X]
  | Some (FieldAddr X) => [X]
  | Some (IndexAddr X _) => [X]
  | Some (Phi Edges) => Edges
  | _ => []
  end.

(** [derivedFrom heap storesTo v w]: [w] is [v] or a value [v] is derived
    from, along the edges the resolver follows. *)
Definition derivedFrom (heap : Heap) (storesTo : gmap Value Value)
    : Value → Value → Prop :=
  reach (provSuccs heap storesTo).

Definition derivedFrom1 (heap : Heap) : Value → Value → Prop :=
  reach (provSuccs1 heap).

(** The shapes with a case of their own in the type switch of
    [findAllocationRec]. *)
Definition traced (n : option Node) : bool :=
  match n with
  | Some (UnOp _) | Some (FieldAddr _) | Some (IndexAddr _ _)
  | Some (Phi _) | Some (MakeInterface _) => true
  | _ => false
  end.

(** ** Notions used to state the properties of the second pass *)

(** [releasedIn t instrs r]: one of [instrs] is a tracked Free() call of
    the arena [r]. *)
Definition releasedIn (t : Tracking) (instrs : list Value) (r : Value) : Prop :=
  ∃ rel, rel ∈ instrs ∧ freeInstrs t !! rel = Some r.

(** The value of [freedArenas] after the sweep has gone through [instrs]
    from the entry of a block. *)
Definition freedAfter (t : Tracking) (instrs : list Value) : gset Value :=
  foldl (markFreed t) ∅ instrs.

(** The diagnostics of one kind, in order. *)
Definition ofKind (k : Kind) (ds : list Diagnostic) : list Diagnostic :=
  filter (λ d, dKind d = k) ds.

(** [offending heap t freed rand = Some alloc]: the operand is not nil, it
    resolves to [alloc], and the arena of [alloc] is in [freed]. *)
Definition offending (heap : Heap) (t : Tracking) (freed : gset Value)
    (rand : option Value) : option allocInfo :=
  match rand with
  | Some operand =>
      match resolve heap t operand with
      | Some alloc => if decide (value (arena alloc) ∈ freed) then Some alloc else None
      | None => None
      end
  | None => None
  end.

(** [tracesToArenaAlloc] answers with a boolean where the search answers
    with an option. *)
Definition asBool (r : option (option unit * gset Value)) : option (bool * gset Value) :=
  match r with
  | Some (Some _, vis) => Some (true, vis)
  | Some (None, vis) => Some (false, vis)
  | None => None
  end.

(** ** Concrete functions

    Callees of the arena API, as [callee.String()] and [callee.Name()]
    print them. *)
Definition calleeNewArena : Callee := mkCallee "arena.NewArena" "NewArena".
Definition calleeNew : Callee := mkCallee "arena.New[int]" "New[int]".
Definition calleeFree : Callee := mkCallee "(*arena.Arena).Free" "Free".

(** The function values called; they are no objects of interest. *)
Definition fnNewArena : Value := 101%positive.
Definition fnNew : Value := 102%positive.
Definition fnFree : Value := 103%positive.

Definition objNewArena (pos : Pos) : Object :=
  mkObject (Call (mkCall fnNewArena [] (Some calleeNewArena))) (TPointer TStruct) pos.
Definition objNew (a : Value) (pos : Pos) : Object :=
  mkObject (Call (mkCall fnNew [a] (Some calleeNew))) (TPointer (TBasic "int")) pos.
Definition objFree (a : Value) (pos : Pos) : Object :=
  mkObject (Call (mkCall fnFree [a] (Some calleeFree))) TInvalid pos.

(** A loop: [t3 = phi [t4, t2]], [t4 = phi [t3]], next to a tracked
    allocation [t2] that only [t3] reaches;
    [t5 = phi [t6, t5]], [t6 = phi [t5]] reach no allocation. *)
Definition heapCycle : Heap :=
  list_to_map [
    (1%positive, objNewArena 10);
    (2%positive, objNew 1%positive 20);
    (3%positive, mkObject (Phi [4; 2]%positive) (TPointer (TBasic "int")) 30);
    (4%positive, mkObject (Phi [3]%positive) (TPointer (TBasic "int")) 40);
    (5%positive, mkObject (Phi [6; 5]%positive) (TPointer (TBasic "int")) 50);
    (6%positive, mkObject (Phi [5]%positive) (TPointer (TBasic "int")) 60);
    (7%positive, mkObject (Return [5]%positive) TInvalid 70)].

Definition blocksCycle : list BasicBlock := [mkBlock [1; 2; 3; 4; 5; 6; 7]%positive].

(** [conditionalEscape]-like functions: a nil constant [t3] and an
    allocation [t2] merged by the phi [t4] and returned by [t5], or returned
    on two branches by [t6] and [t7]. *)
Definition heapBranch : Heap :=
  list_to_map [
    (1%positive, objNewArena 10);
    (2%positive, objNew 1%positive 20);
    (3%positive, mkObject (Other []) (TPointer (TBasic "int")) 0);
    (4%positive, mkObject (Phi [3; 2]%positive) (TPointer (TBasic "int")) 40);
    (5%positive, mkObject (Return [4]%positive) TInvalid 50);
    (6%positive, mkObject (Return [2]%positive) TInvalid 60);
    (7%positive, mkObject (Return [3]%positive) TInvalid 70)].

Definition blocksMerged : list BasicBlock :=
  [mkBlock [1; 2]%positive; mkBlock [4; 5]%positive].

Definition blocksTwoReturns : list BasicBlock :=
  [mkBlock [1; 2]%positive; mkBlock [6]%positive; mkBlock [7]%positive].

(** The claim about the sweep read with a release strictly before the
    instruction: a use-after-free report at [instr], which follows [pre] in
    its block, exactly when an operand resolves to an allocation whose
    arena is released by one of [pre]. *)
Definition reportedExactlyAfterRelease (heap : Heap) (t : Tracking)
    (pre : list Value) (instr : Value) : Prop :=
  (∃ d, d ∈ checkInstr heap t (freedAfter t (pre ++ [instr])) instr
        ∧ dKind d = UseAfterFree)
  ↔ ∃ operand alloc, Some operand ∈ operandsOf heap instr
      ∧ resolve heap t operand = Some alloc
      ∧ releasedIn t pre (value (arena alloc)).

(** A helper [mypkg.FreeAll(a, x)] that is handed the arena and one of its
    allocations: its name contains ".Free", so the call is a tracked
    Free() of [a], and [x] is one of its operands. *)
Definition calleeFreeAll : Callee := mkCallee "mypkg.FreeAll" "FreeAll".

Definition heapFreeAll : Heap :=
  list_to_map [
    (1%positive, objNewArena 10);
    (2%positive, objNew 1%positive 20);
    (3%positive, mkObject (Call (mkCall fnFree [1; 2]%positive (Some calleeFreeAll)))
                          TInvalid 30)].

Definition blocksFreeAll : list BasicBlock := [mkBlock [1; 2; 3]%positive].

(** [useAfterFree]: [a := NewArena(); x := New[int](a); a.Free(); return *x],
    in one block and with the use in a second block. *)
Definition heapUseAfterFree : Heap :=
  list_to_map [
    (1%positive, objNewArena 10);
    (2%positive, objNew 1%positive 20);
    (3%positive, objFree 1%positive 30);
    (4%positive, mkObject (UnOp 2%positive) (TBasic "int") 40);
    (5%positive, mkObject (Return [4]%positive) TInvalid 50);
    (6%positive, mkObject (Other [Some 2; None; Some 4]%positive) TInvalid 60)].

Definition blocksUseAfterFree : list BasicBlock := [mkBlock [1; 2; 3; 4; 5]%positive].

Definition blocksUseInSuccessor : list BasicBlock :=
  [mkBlock [1; 2; 3]%positive; mkBlock [4; 5]%positive].

Definition blocksTwoOperands : list BasicBlock := [mkBlock [1; 2; 3; 6]%positive].

(** Returns of an allocation [t2], of the address of a field of it [t3]
    and of the integer loaded from that field [t4]. *)
Definition heapReturns : Heap :=
  list_to_map [
    (1%positive, objNewArena 10);
    (2%positive, objNew 1%positive 20);
    (3%positive, mkObject (FieldAddr 2%positive) (TPointer (TBasic "int")) 30);
    (4%positive, mkObject (UnOp 3%positive) (TBasic "int") 40);
    (5%positive, mkObject (Return [2]%positive) TInvalid 50);
    (6%positive, mkObject (Return [4]%positive) TInvalid 60);
    (7%positive, mkObject (Return [2; 4; 3]%positive) TInvalid 70)].

Definition blocksDirectReturn : list BasicBlock := [mkBlock [1; 2; 5]%positive].
Definition blocksValueReturn : list BasicBlock := [mkBlock [1; 2; 3; 4; 6]%positive].
Definition blocksThreeResults : list BasicBlock := [mkBlock [1; 2; 3; 4; 7]%positive].

(** Stores to globals: [globalInt = *x] (the store [t5] of the integer
    [t3] to the global [t4]) and [globalPtr = x] (the store [t7] of the
    allocation [t2] to the global [t6]); [t8] returns the integer. *)
Definition heapGlobal : Heap :=
  list_to_map [
    (1%positive, objNewArena 10);
    (2%positive, objNew 1%positive 20);
    (3%positive, mkObject (UnOp 2%positive) (TBasic "int") 30);
    (4%positive, mkObject Global (TPointer (TBasic "int")) 0);
    (5%positive, mkObject (Store 4%positive 3%positive) TInvalid 50);
    (6%positive, mkObject Global (TPointer (TPointer (TBasic "int"))) 0);
    (7%positive, mkObject (Store 6%positive 2%positive) TInvalid 70);
    (8%positive, mkObject (Return [3]%positive) TInvalid 80)].

Definition blocksGlobalValue : list BasicBlock := [mkBlock [1; 2; 3; 5]%positive].
Definition blocksGlobalPointer : list BasicBlock := [mkBlock [1; 2; 7]%positive].
Definition blocksReturnValue : list BasicBlock := [mkBlock [1; 2; 3; 8]%positive].

(** [doubleFree]: [a := NewArena(); a.Free(); a.Free()], in one block and
    with the second Free() in a second block. *)
Definition heapDoubleFree : Heap :=
  list_to_map [
    (1%positive, objNewArena 10);
    (3%positive, objFree 1%positive 30);
    (4%positive, objFree 1%positive 40);
    (5%positive, mkObject (Return []) TInvalid 50)].

Definition blocksDoubleFree : list BasicBlock := [mkBlock [1; 3; 4; 5]%positive].
Definition blocksDoubleFreeSplit : list BasicBlock :=
  [mkBlock [1; 3]%positive; mkBlock [4; 5]%positive].

(** A local slot [t3] stored to twice, with a load [t6] in between: the
    allocation [t2] is stored by [t5], the nil constant [t4] by [t7], and
    [t8] returns the loaded value. *)
Definition heapStores : Heap :=
  list_to_map [
    (1%positive, objNewArena 10);
    (2%positive, objNew 1%positive 20);
    (3%positive, mkObject (Other []) (TPointer (TPointer (TBasic "int"))) 30);
    (4%positive, mkObject (Other []) (TPointer (TBasic "int")) 0);
    (5%positive, mkObject (Store 3%positive 2%positive) TInvalid 50);
    (6%positive, mkObject (UnOp 3%positive) (TPointer (TBasic "int")) 60);
    (7%positive, mkObject (Store 3%positive 4%positive) TInvalid 70);
    (8%positive, mkObject (Return [6]%positive) TInvalid 80)].

(** [*slot = x; y := *slot; *slot = nil; return y]. *)
Definition blocksStoreThenNil : list BasicBlock :=
  [mkBlock [1; 2; 3; 5; 6; 7; 8]%positive].

(** [*slot = nil; y := *slot; *slot = x; return y]. *)
Definition blocksNilThenStore : list BasicBlock :=
  [mkBlock [1; 2; 3; 7; 6; 5; 8]%positive].

(** [helper]: [func helper(a *arena.Arena) *int { return arena.New[int](a) }],
    with the parameter [t1], the allocate call [t2] and the return [t3]. *)
Definition heapHelper : Heap :=
  list_to_map [
    (1%positive, mkObject (Other []) (TPointer TStruct) 10);
    (2%positive, objNew 1%positive 20);
    (3%positive, mkObject (Return [2]%positive) TInvalid 30)].

Definition blocksHelper : list BasicBlock := [mkBlock [2; 3]%positive].

(** The claim about ignored allocations, read on the first pass of the
    earlier [checkFunctionFinal]: an allocate call whose arena argument is
    not in [arenas] gets no entry in [allocToArena]. *)
Definition untrackedIgnored1 (heap : Heap) (blocks : list BasicBlock) : Prop :=
  ∀ call c arenaArg rest,
    shape heap call = Some (Call c) →
    Args c = arenaArg :: rest →
    arenaArg ∉ (firstPass1 heap blocks).1 →
    (firstPass1 heap blocks).2 !! call = None.

(*EXAMPLES*)

(** * Properties *)

(** ** The depth-first search *)
Section DFSFacts.
Context {A : Type}.
Variable hit : Value → option A.
Variable succs : Value → list Value.

Local Abbreviation rec_t := (Value → gset Value → option (option A * gset Value)).

Lemma tryEdges_ext (rec rec' : rec_t) :
  (∀ e vis, rec e vis = rec' e vis) →
  ∀ es vis, tryEdges rec es vis = tryEdges rec' es vis.
Proof.
  intros Hrec es. induction es as [|e es IH]; intros vis; simpl; [done|].
  rewrite Hrec. destruct (rec' e vis) as [[[a|] vis1]|]; auto.
Qed.

Lemma tryEdges_one (rec : rec_t) e vis : tryEdges rec [e] vis = rec e vis.
Proof. simpl. by destruct (rec e vis) as [[[a|] vis1]|]. Qed.



Lemma tryEdges_grows (rec : rec_t) :
  (∀ e vis r vis', rec e vis = Some (r, vis') → vis ⊆ vis') →
  ∀ es vis r vis', tryEdges rec es vis = Some (r, vis') → vis ⊆ vis'.
Proof.
  intros Hrec es. induction es as [|e es IH]; intros vis r vis' H; simpl in H.
  - by simplify_eq.
  - destruct (rec e vis) as [[[a|] vis1]|] eqn:E; try done.
    + simplify_eq. eauto.
    + apply Hrec in E. apply IH in H. set_solver.
Qed.

Lemma dfs_grows fuel : ∀ v vis r vis',
  dfs hit succs fuel v vis = Some (r, vis') → vis ⊆ vis' ∧ v ∈ vis'.
Proof.
  induction fuel as [|fuel IH]; intros v vis r vis' H; simpl in H; [done|].
  destruct (decide (v ∈ vis)) as [Hin|Hnin].
  - by simplify_eq.
  - destruct (hit v) as [a|].
    + simplify_eq. set_solver.
    + apply tryEdges_grows in H; [set_solver|].
      intros e vis0 r0 vis0' H0. by apply IH in H0 as [? _].
Qed.

Lemma tryEdges_more (rec rec' : rec_t) :
  (∀ e vis r, rec e vis = Some r → rec' e vis = Some r) →
  ∀ es vis r, tryEdges rec es vis = Some r → tryEdges rec' es vis = Some r.
Proof.
  intros Hrec es. induction es as [|e es IH]; intros vis r H; simpl in *; [done|].
  destruct (rec e vis) as [[[a|] vis1]|] eqn:E; try done;
    rewrite (Hrec _ _ _ E); auto.
Qed.

(** More fuel never changes an answer. *)
Lemma dfs_more_fuel (fuel : nat) : ∀ (fuel' : nat) v vis r,
  fuel ≤ fuel' → dfs hit succs fuel v vis = Some r → dfs hit succs fuel' v vis = Some r.
Proof.
  induction fuel as [|fuel IH]; intros fuel' v vis r Hle H; simpl in H; [done|].
  destruct fuel' as [|fuel']; [lia|]. simpl.
  destruct (decide (v ∈ vis)); [done|].
  destruct (hit v); [done|].
  eapply tryEdges_more; [|exact H]. intros e vis0 r0. apply IH. lia.
Qed.

Lemma dfs_unfold fuel v vis :
  dfs hit succs (S fuel) v vis =
  if decide (v ∈ vis) then Some (None, vis)
  else match hit v with
       | Some a => Some (Some a, {[v]} ∪ vis)
       | None => tryEdges (dfs hit succs fuel) (succs v) ({[v]} ∪ vis)
       end.
Proof. reflexivity. Qed.

(** Termination: the values that can still be expanded are those of a
    finite universe outside which nothing has successors. *)
Section Termination.
Variable universe : gset Value.
Hypothesis succs_universe : ∀ v, v ∉ universe → succs v = [].

Lemma unvisited_shrinks (v : Value) (vis : gset Value) :
  v ∈ universe → v ∉ vis →
  size (universe ∖ ({[v]} ∪ vis)) < size (universe ∖ vis).
Proof. intros Hu Hv. apply subset_size. set_solver. Qed.

Lemma unvisited_antitone (vis vis' : gset Value) :
  vis ⊆ vis' → size (universe ∖ vis') ≤ size (universe ∖ vis).
Proof. intros H. apply subseteq_size. set_solver. Qed.

Lemma tryEdges_total (rec : rec_t) (n : nat) :
  (∀ e vis, size (universe ∖ vis) < n → is_Some (rec e vis)) →
  (∀ e vis r vis', rec e vis = Some (r, vis') → vis ⊆ vis') →
  ∀ es vis, size (universe ∖ vis) < n → is_Some (tryEdges rec es vis).
Proof.
  intros Htot Hgrow es. induction es as [|e es IH]; intros vis Hn; simpl; [eauto|].
  destruct (Htot e vis Hn) as [[[a|] vis1] E]; rewrite E; [eauto|].
  apply IH. apply Hgrow in E. pose proof (unvisited_antitone _ _ E). lia.
Qed.

Lemma dfs_total (fuel : nat) : ∀ v vis,
  size (universe ∖ vis) < fuel → is_Some (dfs hit succs fuel v vis).
Proof.
  induction fuel as [|fuel IH]; intros v vis Hn; [lia|]. simpl.
  destruct (decide (v ∈ vis)); [eauto|].
  destruct (hit v); [eauto|].
  destruct (decide (v ∈ universe)) as [Hu|Hu].
  - apply (tryEdges_total _ fuel); [exact IH| |].
    + intros e vis0 r vis0' H0. by apply dfs_grows in H0 as [? _].
    + pose proof (unvisited_shrinks v vis Hu n). lia.
  - rewrite (succs_universe _ Hu). simpl. eauto.
Qed.
End Termination.

(** Soundness: an answer is a hit reachable from the start. *)
Lemma tryEdges_sound (rec : rec_t) v :
  (∀ e vis a vis', rec e vis = Some (Some a, vis') →
     ∃ w, reach succs e w ∧ hit w = Some a) →
  ∀ es vis a vis', (∀ e, e ∈ es → edge succs v e) →
    tryEdges rec es vis = Some (Some a, vis') →
    ∃ w, reach succs v w ∧ hit w = Some a.
Proof.
  intros Hrec es. induction es as [|e es IH]; intros vis a vis' Hes H; simpl in H; [done|].
  destruct (rec e vis) as [[[a0|] vis1]|] eqn:E; try done.
  - simplify_eq. destruct (Hrec _ _ _ _ E) as (w & Hw & Hh).
    exists w. split; [|done]. eapply rtc_l; [|exact Hw]. apply Hes. set_solver.
  - eapply IH; [|exact H]. intros e' He'. apply Hes. set_solver.
Qed.

Lemma dfs_sound fuel : ∀ v vis a vis',
  dfs hit succs fuel v vis = Some (Some a, vis') →
  ∃ w, reach succs v w ∧ hit w = Some a.
Proof.
  induction fuel as [|fuel IH]; intros v vis a vis' H; simpl in H; [done|].
  destruct (decide (v ∈ vis)); [done|].
  destruct (hit v) as [a0|] eqn:Hh.
  - simplify_eq. exists v. split; [apply rtc_refl|done].
  - eapply (tryEdges_sound _ v); [exact IH| |exact H]. intros e He. exact He.
Qed.

(** Completeness: a search that finds nothing has closed the visited set
    under successors, and no visited value is a hit. *)
Lemma tryEdges_closed (rec : rec_t) gray :
  (∀ e vis vis', rec e vis = Some (None, vis') →
     closed succs gray vis → nohit hit vis →
     closed succs gray vis' ∧ nohit hit vis' ∧ vis ⊆ vis' ∧ e ∈ vis') →
  ∀ es vis vis', tryEdges rec es vis = Some (None, vis') →
     closed succs gray vis → nohit hit vis →
     closed succs gray vis' ∧ nohit hit vis' ∧ vis ⊆ vis' ∧ ∀ e, e ∈ es → e ∈ vis'.
Proof.
  intros Hrec es. induction es as [|e es IH]; intros vis vis' H Hc Hn; simpl in H.
  - simplify_eq. repeat split; try done. set_solver.
  - destruct (rec e vis) as [[[a0|] vis1]|] eqn:E; try done.
    destruct (Hrec _ _ _ E Hc Hn) as (Hc1 & Hn1 & Hs1 & He1).
    destruct (IH _ _ H Hc1 Hn1) as (Hc2 & Hn2 & Hs2 & He2).
    repeat split; try done; set_solver.
Qed.

Lemma dfs_closed fuel : ∀ gray v vis vis',
  dfs hit succs fuel v vis = Some (None, vis') →
  closed succs gray vis → nohit hit vis →
  closed succs gray vis' ∧ nohit hit vis' ∧ vis ⊆ vis' ∧ v ∈ vis'.
Proof.
  induction fuel as [|fuel IH]; intros gray v vis vis' H Hc Hn; simpl in H; [done|].
  destruct (decide (v ∈ vis)) as [Hin|Hnin].
  - by simplify_eq.
  - destruct (hit v) as [a0|] eqn:Hh; [done|].
    apply (tryEdges_closed _ ({[v]} ∪ gray)) in H.
    + destruct H as (Hc' & Hn' & Hs' & He').
      split; [|split; [done|set_solver]].
      intros u w Hu Hg Huw. destruct (decide (u = v)) as [->|Hne].
      * by apply He'.
      * apply (Hc' u w); [done|set_solver|done].
    + intros e vis0 vis0'. apply IH.
    + intros u w Hu Hg Huw. apply elem_of_union in Hu as [Hu|Hu]; [set_solver|].
      apply elem_of_union_r. apply (Hc u w); [done|set_solver|done].
    + intros u Hu. apply elem_of_union in Hu as [Hu|Hu]; [|by apply Hn].
      apply elem_of_singleton in Hu. by subst.
Qed.

Lemma closed_reach (vis : gset Value) v w :
  closed succs ∅ vis → v ∈ vis → reach succs v w → w ∈ vis.
Proof.
  intros Hc Hv Hr. induction Hr as [|x y z Hxy _ IH]; [done|].
  apply IH. apply (Hc x y); [done|set_solver|done].
Qed.

(** A search from an empty visited set that finds nothing has seen every
    reachable value, and none is a hit. *)
Lemma dfs_none_complete fuel v vis' :
  dfs hit succs fuel v ∅ = Some (None, vis') → ∀ w, reach succs v w → hit w = None.
Proof.
  intros H w Hr.
  apply (dfs_closed _ ∅) in H as (Hc & Hn & _ & Hv); [| |done].
  - apply Hn. by eapply closed_reach.
  - intros u w' Hu. set_solver.
Qed.
End DFSFacts.

(** ** The provenance resolver is that search *)
Section ResolverFacts.
Variable heap : Heap.
Variable allocations : gmap Value allocInfo.
Variable storesTo : gmap Value Value.

Local Abbreviation far := (findAllocationRec heap allocations storesTo).
Local Abbreviation search := (dfs (λ v, allocations !! v) (provSuccs heap storesTo)).

Lemma provSuccs_eq val :
  provSuccs heap storesTo val =
  match shape heap val with
  | Some (UnOp operand) =>
      match storesTo !! operand with
      | Some stored => [stored; operand]
      | None => [operand]
      end
  | Some (FieldAddr X) => [X]
  | Some (IndexAddr X _) => [X]
  | Some (Phi Edges) => Edges
  | Some (MakeInterface X) => [X]
  | _ => []
  end.
Proof. reflexivity. Qed.

Lemma findAllocationRec_dfs fuel : ∀ val visited,
  far fuel val visited = search fuel val visited.
Proof.
  induction fuel as [|fuel IH]; intros val visited; [done|].
  rewrite dfs_unfold. cbn [findAllocationRec].
  destruct (decide (val ∈ visited)); [done|].
  destruct (allocations !! val); [done|].
  rewrite provSuccs_eq.
  destruct (shape heap val) as [[c|X|X|X I|Edges|X| |Ad Vl|Rs|rs]|]; try done.
  - destruct (storesTo !! X) as [stored|].
    + cbn [tryEdges]. rewrite IH.
      destruct (search fuel stored _) as [[[a|] vis1]|]; try done.
      rewrite IH. by destruct (search fuel X vis1) as [[[a'|] vis2]|].
    + by rewrite tryEdges_one.
  - by rewrite tryEdges_one.
  - by rewrite tryEdges_one.
  - apply tryEdges_ext. exact IH.
  - by rewrite tryEdges_one.
Qed.

Lemma provSuccs_outside val : val ∉ dom heap → provSuccs heap storesTo val = [].
Proof.
  intros H. apply not_elem_of_dom in H. unfold provSuccs, shape. by rewrite H.
Qed.

(** Termination: a recursion depth of one more than the number of
    unvisited heap objects is always enough. *)
Lemma findAllocationRec_terminates (fuel : nat) val visited :
  size (dom heap ∖ visited) < fuel →
  ∃ r visited', far fuel val visited = Some (r, visited').
Proof.
  intros Hn. rewrite findAllocationRec_dfs.
  destruct (dfs_total (λ v, allocations !! v) _ (dom heap) provSuccs_outside
              fuel val visited Hn) as [[r vis'] E].
  eauto.
Qed.

Lemma heap_fuel_enough (visited : gset Value) :
  size (dom heap ∖ visited) < S (size heap).
Proof.
  rewrite <- (size_dom (D := gset Value) heap).
  pose proof (subseteq_size (dom heap ∖ visited) (dom heap)) as H.
  assert (dom heap ∖ visited ⊆ dom heap) by set_solver. specialize (H H0). lia.
Qed.

Lemma findAllocation_run val :
  ∃ visited', far (S (size heap)) val ∅ = Some (findAllocation heap allocations storesTo val, visited').
Proof.
  destruct (findAllocationRec_terminates (S (size heap)) val ∅ (heap_fuel_enough ∅))
    as (r & vis' & E).
  exists vis'. unfold findAllocation. by rewrite E.
Qed.

(** The answer does not depend on the fuel, once there is enough. *)
Lemma findAllocationRec_fuel (fuel : nat) val a visited' :
  far fuel val ∅ = Some (a, visited') →
  findAllocation heap allocations storesTo val = a.
Proof.
  intros H. destruct (findAllocation_run val) as (vis1 & E).
  rewrite findAllocationRec_dfs in H, E.
  destruct (decide (fuel ≤ S (size heap))) as [Hle|Hgt].
  - eapply dfs_more_fuel in H; [|exact Hle]. congruence.
  - eapply dfs_more_fuel in E; [|apply Nat.lt_le_incl, Nat.nle_gt, Hgt]. congruence.
Qed.

(** Soundness and completeness of the resolver. *)
Lemma findAllocation_Some val alloc :
  findAllocation heap allocations storesTo val = Some alloc →
  ∃ w, derivedFrom heap storesTo val w ∧ allocations !! w = Some alloc.
Proof.
  intros H. destruct (findAllocation_run val) as (vis1 & E). rewrite H in E.
  rewrite findAllocationRec_dfs in E. by apply dfs_sound in E.
Qed.

Lemma findAllocation_None val :
  findAllocation heap allocations storesTo val = None ↔
  ∀ w, derivedFrom heap storesTo val w → allocations !! w = None.
Proof.
  split.
  - intros H. destruct (findAllocation_run val) as (vis1 & E). rewrite H in E.
    rewrite findAllocationRec_dfs in E.
    exact (dfs_none_complete _ _ _ _ _ E).
  - intros H. destruct (findAllocation heap allocations storesTo val) as [a|] eqn:E; [|done].
    apply findAllocation_Some in E as (w & Hw & Ha). rewrite (H w Hw) in Ha. done.
Qed.

Lemma findAllocation_is_Some val :
  is_Some (findAllocation heap allocations storesTo val) ↔
  ∃ w, derivedFrom heap storesTo val w ∧ is_Some (allocations !! w).
Proof.
  split.
  - intros [a Ha]. apply findAllocation_Some in Ha as (w & ? & ?). eauto.
  - intros (w & Hw & [a Ha]).
    destruct (findAllocation heap allocations storesTo val) as [a'|] eqn:E; [eauto|].
    rewrite findAllocation_None in E. rewrite (E w Hw) in Ha. done.
Qed.
End ResolverFacts.

(** ** The earlier resolver is the same search, with a boolean answer *)
Section TracesFacts.
Variable heap : Heap.
Variable allocToArena : gmap Value Value.

Local Abbreviation hit1 := (λ v : Value, (λ _ : Value, ()) <$> allocToArena !! v).
Local Abbreviation search1 := (dfs hit1 (provSuccs1 heap)).

Lemma anyEdge_tryEdges rec rec' :
  (∀ e vis, rec e vis = asBool (rec' e vis)) →
  ∀ es vis, anyEdge rec es vis = asBool (tryEdges rec' es vis).
Proof.
  intros Hrec es. induction es as [|e es IH]; intros vis; simpl; [done|].
  rewrite Hrec. destruct (rec' e vis) as [[[[]|] vis1]|]; simpl; auto.
Qed.

Lemma provSuccs1_eq val :
  provSuccs1 heap val =
  match shape heap val with
  | Some (UnOp X) => [X]
  | Some (FieldAddr X) => [X]
  | Some (IndexAddr X _) => [X]
  | Some (Phi Edges) => Edges
  | _ => []
  end.
Proof. reflexivity. Qed.

Lemma tracesToArenaAlloc_dfs fuel : ∀ val visited,
  tracesToArenaAlloc heap allocToArena fuel val visited = asBool (search1 fuel val visited).
Proof.
  induction fuel as [|fuel IH]; intros val visited; [done|].
  rewrite dfs_unfold. cbn [tracesToArenaAlloc].
  destruct (decide (val ∈ visited)); [done|].
  destruct (allocToArena !! val); [done|]. cbn [fmap option_fmap option_map].
  rewrite provSuccs1_eq.
  destruct (shape heap val) as [[c|X|X|X I|Edges|X| |Ad Vl|Rs|rs]|]; try done.
  - by rewrite tryEdges_one.
  - by rewrite tryEdges_one.
  - by rewrite tryEdges_one.
  - apply anyEdge_tryEdges. exact IH.
Qed.

Lemma provSuccs1_outside val : val ∉ dom heap → provSuccs1 heap val = [].
Proof.
  intros H. apply not_elem_of_dom in H. unfold provSuccs1, shape. by rewrite H.
Qed.

Lemma tracesToArenaAlloc_terminates (fuel : nat) val visited :
  size (dom heap ∖ visited) < fuel →
  ∃ b visited', tracesToArenaAlloc heap allocToArena fuel val visited = Some (b, visited').
Proof.
  intros Hn. rewrite tracesToArenaAlloc_dfs.
  destruct (dfs_total hit1 _ (dom heap) provSuccs1_outside
              fuel val visited Hn) as [[[[]|] vis'] E]; rewrite E; simpl; eauto.
Qed.

Lemma tracesToArenaAlloc_true fuel val visited visited' :
  tracesToArenaAlloc heap allocToArena fuel val visited = Some (true, visited') →
  ∃ w, derivedFrom1 heap val w ∧ is_Some (allocToArena !! w).
Proof.
  rewrite tracesToArenaAlloc_dfs.
  destruct (search1 fuel val visited) as [[[[]|] vis1]|] eqn:E; simpl; try done.
  intros _. apply dfs_sound in E as (w & Hw & Hh).
  exists w. split; [done|]. destruct (allocToArena !! w); [eauto|done].
Qed.

Lemma escapesViaReturn_true val :
  escapesViaReturn heap allocToArena val = true →
  ∃ w, derivedFrom1 heap val w ∧ is_Some (allocToArena !! w).
Proof.
  unfold escapesViaReturn. destruct (allocToArena !! val) eqn:E.
  - intros _. exists val. split; [apply rtc_refl|by rewrite E].
  - destruct (tracesToArenaAlloc _ _ _ _ _) as [[[] vis1]|] eqn:E1; try done.
    intros _. by eapply tracesToArenaAlloc_true.
Qed.
End TracesFacts.

(** ** Termination and cycle safety of provenance resolution *)

Example cycle_without_allocation :
  resolve heapCycle (firstPass heapCycle blocksCycle) 5%positive = None
  ∧ checkFunctionFinal2 heapCycle blocksCycle = []
  ∧ checkFunctionFinal heapCycle blocksCycle = [].
Proof. vm_compute. done. Qed.

Example cycle_with_allocation :
  allocPos <$> resolve heapCycle (firstPass heapCycle blocksCycle) 4%positive = Some 20.
Proof. vm_compute. done. Qed.

Lemma escapesViaReturn_false heap allocToArena val :
  (∀ w, derivedFrom1 heap val w → allocToArena !! w = None) →
  escapesViaReturn heap allocToArena val = false.
Proof.
  intros H. destruct (escapesViaReturn heap allocToArena val) eqn:E; [|done].
  apply escapesViaReturn_true in E as (w & Hw & [a Ha]). rewrite (H w Hw) in Ha. done.
Qed.

(** C6: provenance resolution terminates within a recursion depth bounded
    by the number of unvisited heap objects, on every value graph (cyclic
    ones included), for [findAllocationRec] and for [tracesToArenaAlloc]:
    the value is in the visited set when its operands are explored, a
    revisited value resolves to none at once and leaves the set unchanged,
    and a value (a cyclic merge, say) from which no tracked allocation is
    derivable resolves to none and is not reported as an escape. *)
Theorem C6_resolution_terminates (heap : Heap) (t : Tracking)
    (allocToArena : gmap Value Value) (fuel : nat) (val : Value) (visited : gset Value) :
  size (dom heap ∖ visited) < fuel →
  (∃ r visited',
      findAllocationRec heap (allocations t) (storesTo t) fuel val visited = Some (r, visited')
      ∧ visited ⊆ visited' ∧ val ∈ visited'
      ∧ (val ∈ visited → r = None ∧ visited' = visited)
      ∧ (val ∉ visited → allocations t !! val = None →
           ∃ fuel', fuel = S fuel' ∧
             findAllocationRec heap (allocations t) (storesTo t) fuel val visited =
             tryEdges (findAllocationRec heap (allocations t) (storesTo t) fuel')
                      (provSuccs heap (storesTo t) val) ({[val]} ∪ visited))
      ∧ ((∀ w, derivedFrom heap (storesTo t) val w → allocations t !! w = None) →
           r = None ∧ resolve heap t val = None
           ∧ ∀ pos, checkResult heap t pos val = []))
  ∧ (∃ b visited',
      tracesToArenaAlloc heap allocToArena fuel val visited = Some (b, visited')
      ∧ visited ⊆ visited' ∧ val ∈ visited'
      ∧ (val ∈ visited → b = false ∧ visited' = visited)
      ∧ ((∀ w, derivedFrom1 heap val w → allocToArena !! w = None) →
           b = false ∧ escapesViaReturn heap allocToArena val = false)).
Proof.
  intros Hn. split.
  - destruct (findAllocationRec_terminates heap (allocations t) (storesTo t)
                fuel val visited Hn) as (r & vis' & E).
    exists r, vis'. split; [done|].
    pose proof E as E'. rewrite findAllocationRec_dfs in E'.
    destruct (dfs_grows _ _ _ _ _ _ _ E') as [Hs Hv].
    split; [done|]. split; [done|]. split; [|split].
    + intros Hin. destruct fuel as [|fuel']; [lia|]. simpl in E.
      destruct (decide (val ∈ visited)); [|done]. by simplify_eq.
    + intros Hnin Hna. destruct fuel as [|fuel']; [lia|]. exists fuel'. split; [done|].
      rewrite findAllocationRec_dfs, dfs_unfold.
      destruct (decide (val ∈ visited)); [done|]. rewrite Hna.
      apply tryEdges_ext. intros e vis. by rewrite findAllocationRec_dfs.
    + intros Hno.
      assert (resolve heap t val = None) as Hres by (by apply findAllocation_None).
      split; [|split; [done|]].
      * destruct r as [a|]; [|done].
        apply dfs_sound in E' as (w & Hw & Ha). rewrite (Hno w Hw) in Ha. done.
      * intros pos. unfold checkResult. by rewrite Hres.
  - destruct (tracesToArenaAlloc_terminates heap allocToArena fuel val visited Hn)
      as (b & vis' & E).
    exists b, vis'. split; [done|].
    pose proof E as E'. rewrite tracesToArenaAlloc_dfs in E'.
    destruct (dfs _ _ fuel val visited) as [[r0 vis0]|] eqn:E0; [|done].
    destruct (dfs_grows _ _ _ _ _ _ _ E0) as [Hs Hv].
    assert (vis0 = vis') as -> by (destruct r0; simpl in E'; by simplify_eq).
    split; [done|]. split; [done|]. split.
    + intros Hin. destruct fuel as [|fuel']; [lia|]. simpl in E.
      destruct (decide (val ∈ visited)); [|done]. by simplify_eq.
    + intros Hno. split; [|by apply escapesViaReturn_false].
      destruct b; [|done].
      apply tracesToArenaAlloc_true in E as (w & Hw & [a Ha]).
      rewrite (Hno w Hw) in Ha. done.
Qed.

Lemma cycle_reaches_no_allocation (w : Value) :
  derivedFrom heapCycle (storesTo (firstPass heapCycle blocksCycle)) 5%positive w →
  allocations (firstPass heapCycle blocksCycle) !! w = None.
Proof.
  intros Hr.
  assert (w = 5%positive ∨ w = 6%positive) as [-> | ->]; [|by vm_compute..].
  assert (∀ u, derivedFrom heapCycle (storesTo (firstPass heapCycle blocksCycle)) u w →
            u = 5%positive ∨ u = 6%positive → w = 5%positive ∨ w = 6%positive) as Hinv.
  { clear Hr. intros u Hr. induction Hr as [|x y z Hxy _ IH]; [done|].
    intros Hx. apply IH. unfold edge in Hxy.
    destruct Hx as [-> | ->]; vm_compute in Hxy; set_solver. }
  eapply Hinv; eauto.
Qed.

Lemma C6_resolution_terminates_witness :
  size (dom heapCycle ∖ (∅ : gset Value)) < 8
  ∧ resolve heapCycle (firstPass heapCycle blocksCycle) 5%positive = None
  ∧ escapesViaReturn heapCycle ∅ 5%positive = false.
Proof.
  assert (size (dom heapCycle ∖ (∅ : gset Value)) < 8) as Hn by (vm_compute; lia).
  split; [exact Hn|].
  destruct (C6_resolution_terminates heapCycle (firstPass heapCycle blocksCycle)
              ∅ 8 5%positive ∅ Hn)
    as [(r & vis & _ & _ & _ & _ & _ & Hnone) (b & vis1 & _ & _ & _ & _ & Hfalse)].
  split.
  - apply Hnone. exact cycle_reaches_no_allocation.
  - apply Hfalse. intros w _. apply lookup_empty.
Defined.

(** ** Control-flow merges *)

Example nil_or_allocation_merged :
  checkFunctionFinal2 heapBranch blocksMerged = [mkDiag 50 EscapesViaReturn 20].
Proof. vm_compute. done. Qed.

Example nil_or_allocation_two_returns :
  checkFunctionFinal2 heapBranch blocksTwoReturns = [mkDiag 60 EscapesViaReturn 20].
Proof. vm_compute. done. Qed.




(** ** The second pass *)
Section SecondPassFacts.
Variable heap : Heap.
Variable t : Tracking.

Lemma ofKind_app k ds1 ds2 : ofKind k (ds1 ++ ds2) = ofKind k ds1 ++ ofKind k ds2.
Proof. apply filter_app. Qed.

Lemma ofKind_all k ds : Forall (λ d, dKind d = k) ds → ofKind k ds = ds.
Proof.
  induction 1 as [|d ds Hd _ IH]; [done|].
  unfold ofKind in *. rewrite filter_cons_True by done. by rewrite IH.
Qed.

Lemma ofKind_none k k' ds : k ≠ k' → Forall (λ d, dKind d = k') ds → ofKind k ds = [].
Proof.
  intros Hne. induction 1 as [|d ds Hd _ IH]; [done|].
  unfold ofKind in *. rewrite filter_cons_False by congruence. exact IH.
Qed.

Lemma ofKind_flat_map {X} k (f : X → list Diagnostic) xs :
  ofKind k (flat_map f xs) = flat_map (λ x, ofKind k (f x)) xs.
Proof.
  induction xs as [|x xs IH]; [done|]. simpl. by rewrite ofKind_app, IH.
Qed.

Lemma checkOperands_kind pos freed rands :
  Forall (λ d, dKind d = UseAfterFree) (checkOperands heap t pos freed rands).
Proof.
  induction rands as [|[o|] rands IH]; simpl; [done| |done].
  destruct (resolve heap t o) as [alloc|]; [|done].
  destruct (decide (value (arena alloc) ∈ freed)); [|done].
  by repeat constructor.
Qed.

Lemma checkResult_kind pos result :
  Forall (λ d, dKind d = EscapesViaReturn) (checkResult heap t pos result).
Proof.
  unfold checkResult. destruct (resolve heap t result); [|done].
  destruct (isPointerType _); by repeat constructor.
Qed.

Lemma checkReturn_kind instr :
  Forall (λ d, dKind d = EscapesViaReturn) (checkReturn heap t instr).
Proof.
  unfold checkReturn.
  destruct (shape heap instr) as [[c|X|X|X I|Edges|X| |Ad Vl|Rs|rs]|]; try done.
  induction Rs as [|r Rs IH]; simpl; [done|].
  apply Forall_app. split; [apply checkResult_kind|exact IH].
Qed.

Lemma checkGlobalStore_kind instr :
  Forall (λ d, dKind d = EscapesToGlobal) (checkGlobalStore heap t instr).
Proof.
  unfold checkGlobalStore.
  destruct (shape heap instr) as [[c|X|X|X I|Edges|X| |Ad Vl|Rs|rs]|]; try done.
  destruct (isGlobalVar heap Ad); [|done].
  destruct (resolve heap t Vl); by repeat constructor.
Qed.

Lemma uafPart_kind freed instr :
  Forall (λ d, dKind d = UseAfterFree)
    (if decide (freed = ∅) then [] else checkUseAfterFree heap t instr freed).
Proof. destruct (decide (freed = ∅)); [done|apply checkOperands_kind]. Qed.

Lemma checkInstr_returns freed instr :
  ofKind EscapesViaReturn (checkInstr heap t freed instr) = checkReturn heap t instr.
Proof.
  unfold checkInstr. rewrite !ofKind_app.
  rewrite (ofKind_all _ (checkReturn heap t instr)) by apply checkReturn_kind.
  rewrite (ofKind_none _ EscapesToGlobal (checkGlobalStore heap t instr))
    by (done || apply checkGlobalStore_kind).
  rewrite (ofKind_none _ UseAfterFree (if decide (freed = ∅) then _ else _))
    by (done || apply uafPart_kind).
  simpl. by rewrite app_nil_r.
Qed.

Lemma checkInstr_globals freed instr :
  ofKind EscapesToGlobal (checkInstr heap t freed instr) = checkGlobalStore heap t instr.
Proof.
  unfold checkInstr. rewrite !ofKind_app.
  rewrite (ofKind_all _ (checkGlobalStore heap t instr)) by apply checkGlobalStore_kind.
  rewrite (ofKind_none _ EscapesViaReturn (checkReturn heap t instr))
    by (done || apply checkReturn_kind).
  by rewrite (ofKind_none _ UseAfterFree (if decide (freed = ∅) then _ else _))
    by (done || apply uafPart_kind).
Qed.

Lemma checkInstr_uaf freed instr :
  ofKind UseAfterFree (checkInstr heap t freed instr) =
  if decide (freed = ∅) then [] else checkUseAfterFree heap t instr freed.
Proof.
  unfold checkInstr. rewrite !ofKind_app.
  rewrite (ofKind_none _ EscapesToGlobal (checkGlobalStore heap t instr))
    by (done || apply checkGlobalStore_kind).
  rewrite (ofKind_none _ EscapesViaReturn (checkReturn heap t instr))
    by (done || apply checkReturn_kind).
  rewrite !app_nil_r. apply ofKind_all, uafPart_kind.
Qed.

Lemma sweep_returns freed instrs :
  ofKind EscapesViaReturn (sweep heap t freed instrs) = flat_map (checkReturn heap t) instrs.
Proof.
  revert freed. induction instrs as [|instr instrs IH]; intros freed; simpl; [done|].
  by rewrite ofKind_app, checkInstr_returns, IH.
Qed.

Lemma sweep_globals freed instrs :
  ofKind EscapesToGlobal (sweep heap t freed instrs) = flat_map (checkGlobalStore heap t) instrs.
Proof.
  revert freed. induction instrs as [|instr instrs IH]; intros freed; simpl; [done|].
  by rewrite ofKind_app, checkInstr_globals, IH.
Qed.

Lemma flat_map_stream {X} (f : Value → list X) blocks :
  flat_map (λ b, flat_map f (Instrs b)) blocks = flat_map f (stream blocks).
Proof.
  unfold stream. induction blocks as [|b blocks IH]; simpl; [done|].
  by rewrite flat_map_app, IH.
Qed.

Lemma blocks_returns blocks :
  ofKind EscapesViaReturn (flat_map (checkBlock heap t) blocks)
  = flat_map (checkReturn heap t) (stream blocks).
Proof.
  rewrite ofKind_flat_map, <- flat_map_stream.
  apply flat_map_ext. intros b. apply sweep_returns.
Qed.

Lemma blocks_globals blocks :
  ofKind EscapesToGlobal (flat_map (checkBlock heap t) blocks)
  = flat_map (checkGlobalStore heap t) (stream blocks).
Proof.
  rewrite ofKind_flat_map, <- flat_map_stream.
  apply flat_map_ext. intros b. apply sweep_globals.
Qed.

Lemma elem_of_ofKind k d ds : d ∈ ofKind k ds ↔ d ∈ ds ∧ dKind d = k.
Proof. unfold ofKind. rewrite list_elem_of_filter. tauto. Qed.

Lemma elem_of_flat_map {X Y} (f : X → list Y) xs y :
  y ∈ flat_map f xs ↔ ∃ x, x ∈ xs ∧ y ∈ f x.
Proof.
  rewrite list_elem_of_In, in_flat_map.
  split; intros (x & Hx & Hy); exists x; split; by apply list_elem_of_In.
Qed.

(** What [checkResult] reports: one diagnostic when the result resolves and
    has a pointer type, nothing otherwise. *)
Lemma checkResult_spec pos result d :
  d ∈ checkResult heap t pos result ↔
  ∃ alloc, resolve heap t result = Some alloc
    ∧ isPointerType (typeOf heap result) = true
    ∧ d = mkDiag pos EscapesViaReturn (allocPos alloc).
Proof.
  unfold checkResult. destruct (resolve heap t result) as [alloc|].
  - destruct (isPointerType (typeOf heap result)).
    + rewrite list_elem_of_singleton. split; [intros ->; eauto|].
      intros (a & ? & _ & ->). by simplify_eq.
    + split; [by intros ?%elem_of_nil|]. by intros (a & _ & ? & _).
  - split; [by intros ?%elem_of_nil|]. by intros (a & ? & _).
Qed.
End SecondPassFacts.

(** ** Escapes via return *)

Example direct_return :
  checkFunctionFinal2 heapReturns blocksDirectReturn = [mkDiag 50 EscapesViaReturn 20].
Proof. vm_compute. done. Qed.

Example value_return :
  resolve heapReturns (firstPass heapReturns blocksValueReturn) 4%positive
    = Some (mkAllocInfo (mkArenaInfo 1%positive) 2%positive 20)
  ∧ checkFunctionFinal2 heapReturns blocksValueReturn = [].
Proof. vm_compute. done. Qed.

Example three_results :
  checkFunctionFinal2 heapReturns blocksThreeResults
  = [mkDiag 70 EscapesViaReturn 20; mkDiag 70 EscapesViaReturn 20].
Proof. vm_compute. done. Qed.

(** The escape-via-return diagnostics of a function are, in order, one per
    result of a return instruction that resolves to a tracked allocation
    and whose type [isPointerType] accepts; a diagnostic of that kind is
    reported exactly for such a result, and a result of any other type is
    never reported, whatever it resolves to. *)
Theorem escape_via_return_reports (heap : Heap) (blocks : list BasicBlock) :
  let t := firstPass heap blocks in
  ofKind EscapesViaReturn (checkFunctionFinal2 heap blocks)
    = flat_map (checkReturn heap t) (stream blocks)
  ∧ (∀ d, d ∈ checkFunctionFinal2 heap blocks ∧ dKind d = EscapesViaReturn ↔
       ∃ instr Results result alloc,
         instr ∈ stream blocks
         ∧ shape heap instr = Some (Return Results)
         ∧ result ∈ Results
         ∧ resolve heap t result = Some alloc
         ∧ isPointerType (typeOf heap result) = true
         ∧ d = mkDiag (posOf heap instr) EscapesViaReturn (allocPos alloc))
  ∧ (∀ pos result,
       checkResult heap t pos result =
       if isPointerType (typeOf heap result)
       then match resolve heap t result with
            | Some alloc => [mkDiag pos EscapesViaReturn (allocPos alloc)]
            | None => []
            end
       else []).
Proof.
  intros t.
  assert (ofKind EscapesViaReturn (checkFunctionFinal2 heap blocks)
          = flat_map (checkReturn heap t) (stream blocks)) as Hlist
    by apply blocks_returns.
  split; [exact Hlist|]. split.
  - intros d. rewrite <- elem_of_ofKind, Hlist, elem_of_flat_map. split.
    + intros (instr & Hin & Hd). unfold checkReturn in Hd.
      destruct (shape heap instr) as [[c|X|X|X I|Edges|X| |Ad Vl|Rs|rs]|] eqn:Hs;
        try by apply elem_of_nil in Hd.
      apply elem_of_flat_map in Hd as (result & Hr & Hd).
      apply checkResult_spec in Hd as (alloc & Ha & Hp & ->).
      by exists instr, Rs, result, alloc.
    + intros (instr & Rs & result & alloc & Hin & Hs & Hr & Ha & Hp & ->).
      exists instr. split; [done|]. unfold checkReturn. rewrite Hs.
      apply elem_of_flat_map. exists result. split; [done|].
      apply checkResult_spec. by exists alloc.
  - intros pos result. unfold checkResult.
    destruct (resolve heap t result); by destruct (isPointerType _).
Qed.

(** ** Escapes to globals *)

Example global_pointer_store :
  checkFunctionFinal2 heapGlobal blocksGlobalPointer = [mkDiag 70 EscapesToGlobal 20].
Proof. vm_compute. done. Qed.

(** What the check of global stores reports: the type of the stored value
    is not looked at. *)
Lemma global_store_reports (heap : Heap) (blocks : list BasicBlock) (d : Diagnostic) :
  let t := firstPass heap blocks in
  d ∈ checkFunctionFinal2 heap blocks ∧ dKind d = EscapesToGlobal ↔
  ∃ instr Addr Val alloc,
    instr ∈ stream blocks
    ∧ shape heap instr = Some (Store Addr Val)
    ∧ isGlobalVar heap Addr = true
    ∧ resolve heap t Val = Some alloc
    ∧ d = mkDiag (posOf heap instr) EscapesToGlobal (allocPos alloc).
Proof.
  intros t. unfold checkFunctionFinal2. fold t.
  rewrite <- elem_of_ofKind, blocks_globals, elem_of_flat_map. split.
  - intros (instr & Hin & Hd). unfold checkGlobalStore in Hd.
    destruct (shape heap instr) as [[c|X|X|X I|Edges|X| |Ad Vl|Rs|rs]|] eqn:Hs;
      try by apply elem_of_nil in Hd.
    destruct (isGlobalVar heap Ad) eqn:Hg; [|by apply elem_of_nil in Hd].
    destruct (resolve heap t Vl) as [alloc|] eqn:Ha; [|by apply elem_of_nil in Hd].
    apply list_elem_of_singleton in Hd as ->.
    by exists instr, Ad, Vl, alloc.
  - intros (instr & Ad & Vl & alloc & Hin & Hs & Hg & Ha & ->).
    exists instr. split; [done|]. unfold checkGlobalStore.
    rewrite Hs, Hg, Ha. by apply list_elem_of_singleton.
Qed.

(** C3 (the code departs from it): storing the integer [*x], whose type is
    no pointer type and whose provenance is the allocation [x], to a global
    is reported as an escape to a global, while returning the same integer
    is not reported. *)
Theorem C3_global_store_of_value_reported :
  isPointerType (typeOf heapGlobal 3%positive) = false
  ∧ resolve heapGlobal (firstPass heapGlobal blocksGlobalValue) 3%positive
      = Some (mkAllocInfo (mkArenaInfo 1%positive) 2%positive 20)
  ∧ checkFunctionFinal2 heapGlobal blocksGlobalValue = [mkDiag 50 EscapesToGlobal 20]
  ∧ checkFunctionFinal2 heapGlobal blocksReturnValue = [].
Proof. vm_compute. done. Qed.

(** ** Double free *)

(** C2 (the code departs from it): both Free() calls of
    [a := NewArena(); a.Free(); a.Free()] are tracked as releases of the
    same arena, and nothing is reported, in one block or across two. *)
Theorem C2_double_free_not_reported :
  freeInstrs (firstPass heapDoubleFree blocksDoubleFree)
    = {[3%positive := 1%positive; 4%positive := 1%positive]}
  ∧ checkFunctionFinal2 heapDoubleFree blocksDoubleFree = []
  ∧ checkFunctionFinal2 heapDoubleFree blocksDoubleFreeSplit = [].
Proof. vm_compute. done. Qed.

(** ** The use-after-free sweep *)
Section SweepFacts.
Variable heap : Heap.
Variable t : Tracking.

Lemma offending_Some freed rand alloc :
  offending heap t freed rand = Some alloc ↔
  ∃ operand, rand = Some operand ∧ resolve heap t operand = Some alloc
    ∧ value (arena alloc) ∈ freed.
Proof.
  unfold offending. destruct rand as [operand|].
  - destruct (resolve heap t operand) as [a|] eqn:E.
    + destruct (decide (value (arena a) ∈ freed)) as [Hin|Hnin]; split.
      * intros ?. simplify_eq. by exists operand.
      * intros (o & ? & ? & ?). by simplify_eq.
      * done.
      * intros (o & ? & ? & ?). by simplify_eq.
    + split; [done|]. intros (o & ? & ? & ?). by simplify_eq.
  - split; [done|]. by intros (o & ? & _).
Qed.

Lemma checkOperands_cons pos freed rand rands :
  checkOperands heap t pos freed (rand :: rands) =
  match offending heap t freed rand with
  | Some alloc => [mkDiag pos UseAfterFree (allocPos alloc)]
  | None => checkOperands heap t pos freed rands
  end.
Proof.
  unfold offending. destruct rand as [operand|]; simpl; [|done].
  destruct (resolve heap t operand) as [a|]; [|done].
  by destruct (decide (value (arena a) ∈ freed)).
Qed.

Lemma checkOperands_length pos freed rands :
  length (checkOperands heap t pos freed rands) ≤ 1.
Proof.
  induction rands as [|rand rands IH]; [simpl; lia|].
  rewrite checkOperands_cons. destruct (offending _ _ _ _); [simpl; lia|exact IH].
Qed.

(** The report is that of the first offending operand; the operands after
    it are not examined. *)
Lemma checkOperands_first pos freed pre rand post alloc :
  (∀ o, o ∈ pre → offending heap t freed o = None) →
  offending heap t freed rand = Some alloc →
  checkOperands heap t pos freed (pre ++ rand :: post)
  = [mkDiag pos UseAfterFree (allocPos alloc)].
Proof.
  intros Hpre Hrand. induction pre as [|o pre IH]; simpl app.
  - by rewrite checkOperands_cons, Hrand.
  - rewrite checkOperands_cons, (Hpre o) by set_solver.
    apply IH. intros o' Ho'. apply Hpre. set_solver.
Qed.

Lemma checkOperands_none pos freed rands :
  (∀ o, o ∈ rands → offending heap t freed o = None) →
  checkOperands heap t pos freed rands = [].
Proof.
  intros H. induction rands as [|o rands IH]; [done|].
  rewrite checkOperands_cons, (H o) by set_solver.
  apply IH. intros o' Ho'. apply H. set_solver.
Qed.

Lemma checkOperands_reports pos freed rands :
  checkOperands heap t pos freed rands ≠ [] ↔
  ∃ operand alloc, Some operand ∈ rands ∧ resolve heap t operand = Some alloc
    ∧ value (arena alloc) ∈ freed.
Proof.
  split.
  - induction rands as [|rand rands IH]; [done|].
    rewrite checkOperands_cons.
    destruct (offending heap t freed rand) as [alloc|] eqn:E.
    + intros _. apply offending_Some in E as (o & -> & ? & ?).
      exists o, alloc. split; [set_solver|done].
    + intros H. destruct (IH H) as (o & alloc & ? & ? & ?).
      exists o, alloc. split; [set_solver|done].
  - intros (operand & alloc & Hin & Hr & Hf) Hnil.
    assert (offending heap t freed (Some operand) = Some alloc) as Ho.
    { apply offending_Some. by exists operand. }
    apply list_elem_of_split in Hin as (pre & post & ->).
    clear Hr Hf. induction pre as [|o pre IH]; simpl app in Hnil;
      rewrite checkOperands_cons in Hnil.
    + by rewrite Ho in Hnil.
    + destruct (offending heap t freed o); [done|]. by apply IH.
Qed.

Lemma markFreed_spec freed instr r :
  r ∈ markFreed t freed instr ↔ r ∈ freed ∨ freeInstrs t !! instr = Some r.
Proof.
  unfold markFreed. destruct (freeInstrs t !! instr) as [a|].
  - rewrite elem_of_union, elem_of_singleton. split; [intros [->|?]; auto|].
    intros [?|?]; [auto|left; congruence].
  - split; [auto|]. by intros [?|?].
Qed.

Lemma foldl_markFreed_spec instrs : ∀ freed r,
  r ∈ foldl (markFreed t) freed instrs ↔ r ∈ freed ∨ releasedIn t instrs r.
Proof.
  unfold releasedIn. induction instrs as [|instr instrs IH]; intros freed r; simpl.
  - split; [auto|]. intros [?|(rel & ?%elem_of_nil & _)]; done.
  - rewrite IH, markFreed_spec. split.
    + intros [[?|?]|(rel & ? & ?)]; [by left|right..].
      * exists instr. split; [left|done].
      * exists rel. split; [by right|done].
    + intros [?|(rel & Hin & ?)]; [by left; left|].
      apply elem_of_cons in Hin as [->|?]; [by left; right|].
      right. by exists rel.
Qed.

Lemma freedAfter_spec instrs r :
  r ∈ freedAfter t instrs ↔ releasedIn t instrs r.
Proof.
  unfold freedAfter. rewrite foldl_markFreed_spec. set_solver.
Qed.

Lemma sweep_app freed pre rest :
  sweep heap t freed (pre ++ rest)
  = sweep heap t freed pre ++ sweep heap t (foldl (markFreed t) freed pre) rest.
Proof.
  revert freed. induction pre as [|i pre IH]; intros freed; simpl; [done|].
  by rewrite IH, app_assoc.
Qed.

Lemma sweep_split pre instr post :
  sweep heap t ∅ (pre ++ instr :: post)
  = sweep heap t ∅ pre
    ++ checkInstr heap t (freedAfter t (pre ++ [instr])) instr
    ++ sweep heap t (freedAfter t (pre ++ [instr])) post.
Proof.
  rewrite sweep_app. simpl. unfold freedAfter. by rewrite foldl_app.
Qed.

Lemma sweep_uaf_count freed instrs :
  length (ofKind UseAfterFree (sweep heap t freed instrs)) ≤ length instrs.
Proof.
  revert freed. induction instrs as [|i instrs IH]; intros freed; simpl; [done|].
  rewrite ofKind_app, length_app, checkInstr_uaf.
  specialize (IH (markFreed t freed i)).
  destruct (decide (markFreed t freed i = ∅)); simpl; [lia|].
  pose proof (checkOperands_length (posOf heap i) (markFreed t freed i) (operandsOf heap i)).
  unfold checkUseAfterFree. lia.
Qed.

Lemma sweep_no_release instrs :
  (∀ r, ¬ releasedIn t instrs r) →
  ofKind UseAfterFree (sweep heap t ∅ instrs) = [].
Proof.
  intros Hno.
  assert (∀ l freed, freed = ∅ → (∀ i, i ∈ l → freeInstrs t !! i = None) →
            ofKind UseAfterFree (sweep heap t freed l) = []) as H.
  { induction l as [|i l IH]; intros freed -> Hl; simpl; [done|].
    assert (markFreed t ∅ i = ∅) as Hm.
    { unfold markFreed. rewrite (Hl i) by set_solver. done. }
    rewrite Hm, ofKind_app, checkInstr_uaf.
    destruct (decide ((∅ : gset Value) = ∅)); [|done]. simpl.
    apply IH; [done|]. intros i' Hi'. apply Hl. set_solver. }
  apply H; [done|]. intros i Hi.
  destruct (freeInstrs t !! i) as [r|] eqn:E; [|done].
  destruct (Hno r). by exists i.
Qed.
End SweepFacts.

Example use_after_free :
  checkFunctionFinal2 heapUseAfterFree blocksUseAfterFree
  = [mkDiag 40 UseAfterFree 20; mkDiag 50 UseAfterFree 20].
Proof. vm_compute. done. Qed.

Example use_in_successor_block :
  checkFunctionFinal2 heapUseAfterFree blocksUseInSuccessor = [].
Proof. vm_compute. done. Qed.

Example two_offending_operands :
  checkFunctionFinal2 heapUseAfterFree blocksTwoOperands = [mkDiag 60 UseAfterFree 20].
Proof. vm_compute. done. Qed.

Lemma checkInstr_uaf_reports (heap : Heap) (t : Tracking) (freed : gset Value) (instr : Value) :
  (∃ d, d ∈ checkInstr heap t freed instr ∧ dKind d = UseAfterFree) ↔
  ∃ operand alloc, Some operand ∈ operandsOf heap instr
    ∧ resolve heap t operand = Some alloc
    ∧ value (arena alloc) ∈ freed.
Proof.
  transitivity (ofKind UseAfterFree (checkInstr heap t freed instr) ≠ []).
  { split.
    - intros (d & Hd). apply elem_of_ofKind in Hd. intros E. rewrite E in Hd.
      by apply elem_of_nil in Hd.
    - destruct (ofKind UseAfterFree (checkInstr heap t freed instr)) as [|d ds] eqn:E;
        [done|].
      intros _. exists d. apply elem_of_ofKind. rewrite E. left. }
  rewrite checkInstr_uaf. destruct (decide (freed = ∅)) as [->|Hne].
  - split; [done|]. intros (o & a & _ & _ & H). set_solver.
  - apply checkOperands_reports.
Qed.

(** The sweep as the code runs it: the set of freed arenas is empty at the
    entry of every block and holds exactly the arenas released by the
    tracked Free() calls of the block met so far, the current instruction
    included (its release is recorded before it is checked); the reports
    of a block split at any instruction into those before it, those at it
    and those after it, and a use-after-free is reported at the instruction
    exactly when one of its operands resolves to an allocation whose arena
    was released by the instruction itself or by an earlier instruction of
    the same block; a block without a tracked Free() call reports no
    use-after-free, whatever the other blocks release. *)
Theorem use_after_free_sweep (heap : Heap) (t : Tracking)
    (pre : list Value) (instr : Value) (post : list Value) :
  let freed := freedAfter t (pre ++ [instr]) in
  freedAfter t [] = ∅
  ∧ (∀ r, r ∈ freed ↔ releasedIn t (pre ++ [instr]) r)
  ∧ checkBlock heap t (mkBlock (pre ++ instr :: post))
      = checkBlock heap t (mkBlock pre) ++ checkInstr heap t freed instr
        ++ sweep heap t freed post
  ∧ ((∃ d, d ∈ checkInstr heap t freed instr ∧ dKind d = UseAfterFree) ↔
       ∃ operand alloc, Some operand ∈ operandsOf heap instr
         ∧ resolve heap t operand = Some alloc
         ∧ releasedIn t (pre ++ [instr]) (value (arena alloc)))
  ∧ (∀ blocks,
       ofKind UseAfterFree (checkFunctionFinal2 heap blocks)
       = flat_map (λ b, ofKind UseAfterFree (sweep heap (firstPass heap blocks) ∅ (Instrs b)))
                  blocks)
  ∧ (∀ block, (∀ r, ¬ releasedIn t (Instrs block) r) →
       ofKind UseAfterFree (checkBlock heap t block) = []).
Proof.
  intros freed. split; [done|]. split; [apply freedAfter_spec|].
  split; [apply sweep_split|]. split; [|split].
  - rewrite checkInstr_uaf_reports. unfold freed.
    split; intros (o & a & ? & ? & ?); exists o, a; by rewrite freedAfter_spec in *.
  - intros blocks. unfold checkFunctionFinal2. by rewrite ofKind_flat_map.
  - intros block Hno. by apply sweep_no_release.
Qed.

(** C4 (the code departs from it): at the call [t3 = mypkg.FreeAll(a, x)],
    the only release of [a] in its block, a use-after-free is reported for
    the operand [x], although no release of [a] comes before the call: the
    call is checked after its own release is recorded. *)
Lemma C4_release_instruction_reported :
  checkFunctionFinal2 heapFreeAll blocksFreeAll = [mkDiag 30 UseAfterFree 20]
  ∧ ¬ reportedExactlyAfterRelease heapFreeAll (firstPass heapFreeAll blocksFreeAll)
        [1; 2]%positive 3%positive.
Proof.
  split; [by vm_compute|].
  intros [Hafter _].
  destruct Hafter as (o & a & _ & _ & (rel & Hin & Hrel)).
  - exists (mkDiag 30 UseAfterFree 20). split; [|done].
    vm_compute. left.
  - apply elem_of_cons in Hin as [->|Hin]; [by vm_compute in Hrel|].
    apply elem_of_cons in Hin as [->|Hin]; [by vm_compute in Hrel|].
    by apply elem_of_nil in Hin.
Qed.

(** C9: the use-after-free check reports at most once per instruction, for
    the first operand that resolves to an allocation of a freed arena,
    whatever the operands after it; hence a function gets no more
    use-after-free diagnostics than it has instructions. *)
Theorem C9_one_report_per_instruction (heap : Heap) (t : Tracking)
    (instr : Value) (freed : gset Value) :
  length (checkUseAfterFree heap t instr freed) ≤ 1
  ∧ length (ofKind UseAfterFree (checkInstr heap t freed instr)) ≤ 1
  ∧ (∀ pre rand post alloc,
       operandsOf heap instr = pre ++ rand :: post →
       (∀ o, o ∈ pre → offending heap t freed o = None) →
       offending heap t freed rand = Some alloc →
       checkUseAfterFree heap t instr freed
       = [mkDiag (posOf heap instr) UseAfterFree (allocPos alloc)])
  ∧ ((∀ o, o ∈ operandsOf heap instr → offending heap t freed o = None) →
       checkUseAfterFree heap t instr freed = [])
  ∧ (∀ blocks,
       length (ofKind UseAfterFree (checkFunctionFinal2 heap blocks))
       ≤ length (stream blocks)).
Proof.
  split; [apply checkOperands_length|]. split; [|split; [|split]].
  - rewrite checkInstr_uaf. destruct (decide (freed = ∅)); [simpl; lia|].
    apply checkOperands_length.
  - intros pre rand post alloc Hops Hpre Hrand. unfold checkUseAfterFree.
    rewrite Hops. by apply checkOperands_first.
  - intros Hnone. by apply checkOperands_none.
  - intros blocks. unfold checkFunctionFinal2, stream.
    generalize (firstPass heap blocks). intros t0.
    induction blocks as [|b blocks IH]; simpl; [done|].
    rewrite ofKind_app, !length_app.
    pose proof (sweep_uaf_count heap t0 ∅ (Instrs b)). unfold checkBlock at 1. lia.
Qed.

(** ** The first pass *)
Section FirstPassFacts.
Variable heap : Heap.

Lemma storesTo_trackInstr t instr :
  storesTo (trackInstr heap t instr) =
  match shape heap instr with
  | Some (Store Addr Val) => <[Addr := Val]> (storesTo t)
  | _ => storesTo t
  end.
Proof.
  unfold trackInstr.
  destruct (shape heap instr) as [[c|X|X|X I|Edges|X| |Ad Vl|Rs|rs]|]; try done.
  by destruct (StaticCallee c).
Qed.

(** Instructions that store to no address [Addr] leave its entry alone. *)
Lemma storesTo_foldl_other Addr instrs : ∀ t,
  (∀ s a v, s ∈ instrs → shape heap s = Some (Store a v) → a ≠ Addr) →
  storesTo (foldl (trackInstr heap) t instrs) !! Addr = storesTo t !! Addr.
Proof.
  induction instrs as [|i instrs IH]; intros t H; simpl; [done|].
  rewrite IH by (intros s a v Hs; apply H; set_solver).
  rewrite storesTo_trackInstr.
  destruct (shape heap i) as [[c|X|X|X I|Edges|X| |Ad Vl|Rs|rs]|] eqn:Hs; try done.
  apply lookup_insert_ne. eapply H; [|exact Hs]. set_solver.
Qed.

Lemma storesTo_last_store pre s post Addr Val t :
  shape heap s = Some (Store Addr Val) →
  (∀ s' a v, s' ∈ post → shape heap s' = Some (Store a v) → a ≠ Addr) →
  storesTo (foldl (trackInstr heap) t (pre ++ s :: post)) !! Addr = Some Val.
Proof.
  intros Hs Hpost. rewrite foldl_app. simpl.
  rewrite storesTo_foldl_other by done.
  rewrite storesTo_trackInstr, Hs. apply lookup_insert_eq.
Qed.

Lemma arenas_trackInstr_mono t instr k :
  is_Some (arenas t !! k) → is_Some (arenas (trackInstr heap t instr) !! k).
Proof.
  intros Hk. unfold trackInstr.
  destruct (shape heap instr) as [[c|X|X|X I|Edges|X| |Ad Vl|Rs|rs]|]; try done.
  destruct (StaticCallee c) as [callee|]; [|done]. simpl.
  unfold trackNewArena. destruct (Contains _ _); [|done].
  destruct (decide (instr = k)) as [->|Hne].
  - rewrite lookup_insert_eq. eauto.
  - by rewrite lookup_insert_ne.
Qed.

Lemma arenas_foldl_mono instrs : ∀ t k,
  is_Some (arenas t !! k) → is_Some (arenas (foldl (trackInstr heap) t instrs) !! k).
Proof.
  induction instrs as [|i instrs IH]; intros t k Hk; simpl; [done|].
  by apply IH, arenas_trackInstr_mono.
Qed.

(** An allocation entry is recorded at the call itself, and only when its
    first argument is a tracked arena at that time. *)
Lemma allocations_trackInstr t instr call ai :
  allocations (trackInstr heap t instr) !! call = Some ai →
  allocations t !! call = Some ai
  ∨ ∃ c arenaArg rest, shape heap call = Some (Call c) ∧ Args c = arenaArg :: rest
      ∧ is_Some (arenas (trackInstr heap t instr) !! arenaArg).
Proof.
  unfold trackInstr.
  destruct (shape heap instr) as [[c|X|X|X I|Edges|X| |Ad Vl|Rs|rs]|] eqn:Hs; auto.
  destruct (StaticCallee c) as [callee|]; [|auto]. simpl.
  unfold trackNew. destruct (_ && _); [|auto].
  destruct (Args c) as [|arenaArg rest] eqn:Hargs; [auto|].
  destruct (trackNewArena instr callee (arenas t) !! arenaArg) as [info|] eqn:Ha; [|auto].
  destruct (decide (instr = call)) as [->|Hne].
  - intros _. right. exists c, arenaArg, rest. rewrite Ha. eauto.
  - rewrite lookup_insert_ne by done. auto.
Qed.

Lemma allocations_foldl instrs : ∀ t call ai,
  allocations (foldl (trackInstr heap) t instrs) !! call = Some ai →
  allocations t !! call = Some ai
  ∨ ∃ c arenaArg rest, shape heap call = Some (Call c) ∧ Args c = arenaArg :: rest
      ∧ is_Some (arenas (foldl (trackInstr heap) t instrs) !! arenaArg).
Proof.
  induction instrs as [|i instrs IH]; intros t call ai H; simpl in *; [auto|].
  apply IH in H as [H|H]; [|auto].
  apply allocations_trackInstr in H as [H|(c & a & rest & ? & ? & Hsome)]; [auto|].
  right. exists c, a, rest. split; [done|]. split; [done|].
  by apply arenas_foldl_mono.
Qed.

(** The earlier pass: the entry of an allocate call is its first argument,
    whatever that is. *)
Lemma trackInstr1_other acc instr call :
  instr ≠ call → (trackInstr1 heap acc instr).2 !! call = acc.2 !! call.
Proof.
  intros Hne. unfold trackInstr1.
  destruct (shape heap instr) as [[c|X|X|X I|Edges|X| |Ad Vl|Rs|rs]|]; try done.
  destruct (StaticCallee c) as [callee|]; [|done]. simpl.
  destruct (_ && _); [|done].
  destruct (Args c); [done|]. by rewrite lookup_insert_ne.
Qed.

Lemma allocToArena_foldl call c callee arenaArg rest instrs : ∀ acc,
  shape heap call = Some (Call c) →
  StaticCallee c = Some callee →
  Contains (String_ callee) "arena.New[" = true →
  Args c = arenaArg :: rest →
  call ∈ instrs ∨ acc.2 !! call = Some arenaArg →
  (foldl (trackInstr1 heap) acc instrs).2 !! call = Some arenaArg.
Proof.
  intros acc Hs Hc Hn Ha. revert acc.
  induction instrs as [|i instrs IH]; intros acc H; simpl.
  - destruct H as [H|H]; [by apply elem_of_nil in H|done].
  - apply IH. destruct (decide (i = call)) as [->|Hne].
    + right. unfold trackInstr1. rewrite Hs, Hc. simpl. rewrite Hn, Ha. simpl.
      apply lookup_insert_eq.
    + destruct H as [H|H]; [left; set_solver|].
      right. by rewrite trackInstr1_other.
Qed.
End FirstPassFacts.

(** A value that is no tracked allocation and has no case of its own in
    the type switch resolves to none. *)
Lemma findAllocation_untraced (heap : Heap) (allocations : gmap Value allocInfo)
    (storesTo : gmap Value Value) (val : Value) :
  allocations !! val = None → traced (shape heap val) = false →
  findAllocation heap allocations storesTo val = None.
Proof.
  intros Ha Ht. unfold findAllocation. cbn [findAllocationRec].
  destruct (decide (val ∈ (∅ : gset Value))); [done|]. rewrite Ha.
  by destruct (shape heap val) as [[c|X|X|X I|Edges|X| |Ad Vl|Rs|rs]|].
Qed.

(** ** The store map *)

Example store_then_nil :
  storesTo (firstPass heapStores blocksStoreThenNil) !! 3%positive = Some 4%positive
  ∧ resolve heapStores (firstPass heapStores blocksStoreThenNil) 6%positive = None
  ∧ checkFunctionFinal2 heapStores blocksStoreThenNil = [].
Proof. vm_compute. done. Qed.

Example nil_then_store :
  storesTo (firstPass heapStores blocksNilThenStore) !! 3%positive = Some 2%positive
  ∧ checkFunctionFinal2 heapStores blocksNilThenStore = [mkDiag 80 EscapesViaReturn 20].
Proof. vm_compute. done. Qed.

Lemma findAllocation_load (heap : Heap) (allocations : gmap Value allocInfo)
    (storesTo : gmap Value Value) (load Addr Val : Value) :
  shape heap load = Some (UnOp Addr) → allocations !! load = None →
  storesTo !! Addr = Some Val →
  findAllocation heap allocations storesTo load =
  match tryEdges (findAllocationRec heap allocations storesTo (size heap))
                 [Val; Addr] {[load]} with
  | Some (r, _) => r
  | None => None
  end.
Proof.
  intros Hs Ha Hst. unfold findAllocation. cbn [findAllocationRec tryEdges].
  destruct (decide (load ∈ (∅ : gset Value))) as [Hin|_]; [set_solver|].
  rewrite Ha, Hs, Hst, (right_id_L ∅ (∪)).
  destruct (findAllocationRec _ _ _ _ Val _) as [[[a|] vis1]|]; try done.
  by destruct (findAllocationRec _ _ _ _ Addr _) as [[[a|] vis2]|].
Qed.

(** C10: after the first pass the store map holds, for an address, the
    value of the last store to it in the instruction stream of the whole
    function; a load from that address, wherever it stands in the stream,
    is resolved through that value and then through the address, and
    through nothing else. *)
Theorem C10_last_store_wins (heap : Heap) (blocks : list BasicBlock)
    (pre : list Value) (s : Value) (post : list Value) (Addr Val : Value) :
  stream blocks = pre ++ s :: post →
  shape heap s = Some (Store Addr Val) →
  (∀ s' a v, s' ∈ post → shape heap s' = Some (Store a v) → a ≠ Addr) →
  let t := firstPass heap blocks in
  storesTo t !! Addr = Some Val
  ∧ ∀ load, shape heap load = Some (UnOp Addr) →
      provSuccs heap (storesTo t) load = [Val; Addr]
      ∧ (allocations t !! load = None →
           resolve heap t load =
             match tryEdges (findAllocationRec heap (allocations t) (storesTo t) (size heap))
                            [Val; Addr] {[load]} with
             | Some (r, _) => r
             | None => None
             end
           ∧ (is_Some (resolve heap t load) ↔
                ∃ w, (derivedFrom heap (storesTo t) Val w
                      ∨ derivedFrom heap (storesTo t) Addr w)
                     ∧ is_Some (allocations t !! w))).
Proof.
  intros Hstream Hs Hpost t.
  assert (storesTo t !! Addr = Some Val) as Hst.
  { unfold t, firstPass. rewrite Hstream. by apply storesTo_last_store. }
  split; [exact Hst|]. intros load Hload.
  assert (provSuccs heap (storesTo t) load = [Val; Addr]) as Hsuccs.
  { unfold provSuccs. by rewrite Hload, Hst. }
  split; [exact Hsuccs|]. intros Ha. split.
  - by apply findAllocation_load.
  - unfold resolve. rewrite findAllocation_is_Some. split.
    + intros (w & Hw & Hsome). exists w. split; [|done].
      apply rtc_inv in Hw as [->|(y & Hy & Hyw)].
      * rewrite Ha in Hsome. by destruct Hsome.
      * unfold edge in Hy. rewrite Hsuccs in Hy.
        apply elem_of_cons in Hy as [->|Hy]; [by left|].
        apply list_elem_of_singleton in Hy as ->. by right.
    + intros (w & [Hw|Hw] & Hsome); exists w; (split; [|done]);
        (eapply rtc_l; [|exact Hw]); unfold edge; rewrite Hsuccs; set_solver.
Qed.

Lemma C10_last_store_wins_witness :
  stream blocksNilThenStore = [1; 2; 3; 7; 6]%positive ++ 5%positive :: [8%positive]
  ∧ shape heapStores 5%positive = Some (Store 3%positive 2%positive)
  ∧ storesTo (firstPass heapStores blocksNilThenStore) !! 3%positive = Some 2%positive.
Proof.
  assert (stream blocksNilThenStore
          = [1; 2; 3; 7; 6]%positive ++ 5%positive :: [8%positive]) as H1
    by reflexivity.
  assert (shape heapStores 5%positive = Some (Store 3%positive 2%positive)) as H2
    by (vm_compute; reflexivity).
  split; [exact H1|]. split; [exact H2|].
  refine (proj1 (C10_last_store_wins heapStores blocksNilThenStore
                   _ _ _ _ _ H1 H2 _)).
  intros s' a v Hin Hs. apply list_elem_of_singleton in Hin. subst s'.
  vm_compute in Hs. discriminate Hs.
Defined.

(** ** Robustness *)

(** C5: [runFinal2] skips a nil function and a function without blocks
    and reports nothing for them; a value that is no tracked allocation and
    has none of the five traced shapes resolves to none; and resolution
    returns on every value of every heap. *)
Theorem C5_analyzer_total (heap : Heap) (fns : list (option Function)) :
  runFinal2 heap (None :: fns) = runFinal2 heap fns
  ∧ runFinal2 heap (Some (mkFunction None) :: fns) = runFinal2 heap fns
  ∧ runFinal2 heap [None; Some (mkFunction None)] = []
  ∧ (∀ allocations storesTo val visited fuel,
       val ∉ visited → allocations !! val = None → traced (shape heap val) = false →
       findAllocationRec heap allocations storesTo (S fuel) val visited
       = Some (None, {[val]} ∪ visited))
  ∧ (∀ allocations storesTo val,
       allocations !! val = None → traced (shape heap val) = false →
       findAllocation heap allocations storesTo val = None)
  ∧ (∀ allocations storesTo val, ∃ visited',
       findAllocationRec heap allocations storesTo (S (size heap)) val ∅
       = Some (findAllocation heap allocations storesTo val, visited')).
Proof.
  split; [done|]. split; [done|]. split; [done|]. split; [|split].
  - intros allocations storesTo val visited fuel Hv Ha Ht. cbn [findAllocationRec].
    destruct (decide (val ∈ visited)); [done|]. rewrite Ha.
    by destruct (shape heap val) as [[c|X|X|X I|Edges|X| |Ad Vl|Rs|rs]|].
  - intros allocations storesTo val. apply findAllocation_untraced.
  - intros allocations storesTo val. apply findAllocation_run.
Qed.

(** ** Allocations into untracked arenas *)

Example helper_not_reported :
  checkFunctionFinal2 heapHelper blocksHelper = [].
Proof. vm_compute. done. Qed.

(** C8, amended: in the first pass of [checkFunctionFinal2] an allocate
    call whose arena argument is no tracked arena gets no allocation entry,
    resolves to none and is reported nowhere; the first pass of the earlier
    [checkFunctionFinal] records every allocate call of the stream with its
    first argument, whatever that is, and reports its return. *)
Theorem C8_untracked_region_ignored (heap : Heap) (blocks : list BasicBlock)
    (call : Value) (c : CallCommon) :
  shape heap call = Some (Call c) →
  (∀ arenaArg rest, Args c = arenaArg :: rest →
     arenas (firstPass heap blocks) !! arenaArg = None) →
  let t := firstPass heap blocks in
  allocations t !! call = None
  ∧ resolve heap t call = None
  ∧ (∀ pos, checkResult heap t pos call = [])
  ∧ (∀ freed, offending heap t freed (Some call) = None)
  ∧ (∀ callee arenaArg rest,
       call ∈ stream blocks → StaticCallee c = Some callee →
       Contains (String_ callee) "arena.New[" = true →
       Args c = arenaArg :: rest →
       (firstPass1 heap blocks).2 !! call = Some arenaArg
       ∧ escapesViaReturn heap (firstPass1 heap blocks).2 call = true).
Proof.
  intros Hs Huntracked t.
  assert (allocations t !! call = None) as Ha.
  { destruct (allocations t !! call) as [ai|] eqn:E; [|done].
    apply allocations_foldl in E as [E|(c' & a & rest & Hs' & Hargs & Hsome)].
    - simpl in E. by rewrite lookup_empty in E.
    - rewrite Hs in Hs'. simplify_eq.
      pose proof (Huntracked a rest Hargs) as Hnone. unfold firstPass in Hnone.
      rewrite Hnone in Hsome. by destruct Hsome. }
  assert (resolve heap t call = None) as Hr.
  { apply findAllocation_untraced; [done|]. by rewrite Hs. }
  split; [done|]. split; [done|]. split; [|split].
  - intros pos. unfold checkResult. by rewrite Hr.
  - intros freed. unfold offending. by rewrite Hr.
  - intros callee arenaArg rest Hin Hc Hn Hargs.
    assert ((firstPass1 heap blocks).2 !! call = Some arenaArg) as H1.
    { unfold firstPass1. eapply allocToArena_foldl; eauto. }
    split; [done|]. unfold escapesViaReturn. by rewrite H1.
Qed.

Lemma C8_untracked_region_ignored_witness :
  shape heapHelper 2%positive = Some (Call (mkCall fnNew [1%positive] (Some calleeNew)))
  ∧ allocations (firstPass heapHelper blocksHelper) !! 2%positive = None
  ∧ (firstPass1 heapHelper blocksHelper).2 !! 2%positive = Some 1%positive.
Proof.
  assert (shape heapHelper 2%positive
          = Some (Call (mkCall fnNew [1%positive] (Some calleeNew)))) as Hs
    by (vm_compute; reflexivity).
  split; [exact Hs|].
  destruct (C8_untracked_region_ignored heapHelper blocksHelper 2%positive _ Hs)
    as (Ha & _ & _ & _ & H1).
  - intros arenaArg rest Hargs. simpl in Hargs. injection Hargs as <- _.
    vm_compute. reflexivity.
  - split; [exact Ha|].
    refine (proj1 (H1 calleeNew 1%positive [] _ eq_refl _ eq_refl)).
    + apply list_elem_of_In. simpl. auto.
    + vm_compute. reflexivity.
Defined.

(** C8 as stated fails on the earlier pass: the allocate call of [helper]
    takes its arena from a parameter, and [checkFunctionFinal] records it
    and reports its return. *)
Lemma C8_earlier_pass_records :
  ¬ untrackedIgnored1 heapHelper blocksHelper
  ∧ checkFunctionFinal heapHelper blocksHelper = [mkReport 30 MayEscapeViaReturn].
Proof.
  split; [|by vm_compute].
  intros H.
  specialize (H 2%positive (mkCall fnNew [1%positive] (Some calleeNew)) 1%positive []).
  assert ((firstPass1 heapHelper blocksHelper).2 !! 2%positive = None) as E.
  { apply H; [by vm_compute|done|]. vm_compute. intros Hin. discriminate Hin. }
  vm_compute in E. discriminate E.
Qed.

(** * More of the analyzer *)

(** ** Values that cannot contribute to a search *)
Section DeadValues.
Context {A : Type}.
Variable hit : Value → option A.
Variable succs : Value → list Value.
Variable D : gset Value.

(** The values of [D] are dead for a visited set: none is a hit, and their
    successors are in [D] or visited already. *)
Definition dead (vis : gset Value) : Prop :=
  ∀ u, u ∈ D → hit u = None ∧ ∀ w, w ∈ succs u → w ∈ D ∪ vis.

Lemma dead_grows vis vis' : dead vis → vis ⊆ vis' → dead vis'.
Proof.
  intros Hd Hs u Hu. destruct (Hd u Hu) as [Hh Hw]. split; [done|].
  intros w Hin. specialize (Hw w Hin). set_solver.
Qed.

Lemma tryEdges_dead (rec : Value → gset Value → option (option A * gset Value)) :
  (∀ e vis r vis', dead vis → e ∈ D ∪ vis → rec e vis = Some (r, vis') →
     r = None ∧ vis ⊆ vis' ∧ vis' ⊆ D ∪ vis) →
  ∀ es vis r vis', dead vis → (∀ e, e ∈ es → e ∈ D ∪ vis) →
    tryEdges rec es vis = Some (r, vis') →
    r = None ∧ vis ⊆ vis' ∧ vis' ⊆ D ∪ vis.
Proof.
  intros Hrec es. induction es as [|e es IH]; intros vis r vis' Hd Hes H; simpl in H.
  - simplify_eq. set_solver.
  - destruct (rec e vis) as [[[a|] vis1]|] eqn:E; try done.
    + apply Hrec in E as (? & _); [done|done|]. apply Hes. set_solver.
    + apply Hrec in E as (_ & Hs1 & Hs2); [|done|apply Hes; set_solver].
      apply IH in H as (-> & Hs3 & Hs4).
      * split; [done|]. set_solver.
      * by eapply dead_grows.
      * intros e' He'. specialize (Hes e'). set_solver.
Qed.

(** A search started in [D] finds nothing and visits nothing outside [D]. *)
Lemma dfs_dead fuel : ∀ u vis r vis',
  dead vis → u ∈ D ∪ vis → dfs hit succs fuel u vis = Some (r, vis') →
  r = None ∧ vis ⊆ vis' ∧ vis' ⊆ D ∪ vis.
Proof.
  induction fuel as [|fuel IH]; intros u vis r vis' Hd Hu H; simpl in H; [done|].
  destruct (decide (u ∈ vis)) as [Hin|Hnin].
  - simplify_eq. set_solver.
  - assert (u ∈ D) as HuD by set_solver.
    destruct (Hd u HuD) as [Hh Hw]. rewrite Hh in H.
    apply (tryEdges_dead _ IH) in H as (-> & Hs1 & Hs2).
    + split; [done|]. set_solver.
    + eapply dead_grows; [exact Hd|set_solver].
    + intros e He. specialize (Hw e He). set_solver.
Qed.

Lemma tryEdges_skip_dead (rec : Value → gset Value → option (option A * gset Value)) :
  (∀ e vis r vis', rec e vis = Some (r, vis') → vis ⊆ vis') →
  (∀ e vis r vis', dead vis → rec e vis = Some (r, vis') →
     rec e (D ∪ vis) = Some (r, D ∪ vis')) →
  ∀ es vis r vis', dead vis → tryEdges rec es vis = Some (r, vis') →
    tryEdges rec es (D ∪ vis) = Some (r, D ∪ vis').
Proof.
  intros Hgrow Hrec es. induction es as [|e es IH]; intros vis r vis' Hd H; simpl in *.
  - by simplify_eq.
  - destruct (rec e vis) as [[[a|] vis1]|] eqn:E; try done.
    + rewrite (Hrec _ _ _ _ Hd E). by simplify_eq.
    + rewrite (Hrec _ _ _ _ Hd E). apply IH; [|done].
      eapply dead_grows; [exact Hd|]. by eapply Hgrow.
Qed.

(** Marking dead values as visited beforehand changes no answer. *)
Lemma dfs_skip_dead fuel : ∀ u vis r vis',
  dead vis → dfs hit succs fuel u vis = Some (r, vis') →
  dfs hit succs fuel u (D ∪ vis) = Some (r, D ∪ vis').
Proof.
  induction fuel as [|fuel IH]; intros u vis r vis' Hd H; [done|].
  pose proof H as H0. rewrite dfs_unfold in H. rewrite dfs_unfold.
  destruct (decide (u ∈ vis)) as [Hin|Hnin].
  - injection H as <- <-. destruct (decide (u ∈ D ∪ vis)); [done|set_solver].
  - destruct (decide (u ∈ D)) as [HuD|HuD].
    + apply dfs_dead in H0 as (-> & Hs1 & Hs2); [|done|set_solver].
      destruct (decide (u ∈ D ∪ vis)); [|set_solver].
      f_equal. f_equal. set_solver.
    + destruct (decide (u ∈ D ∪ vis)); [set_solver|].
      destruct (hit u) as [a|].
      * injection H as <- <-. f_equal. f_equal. set_solver.
      * assert ({[u]} ∪ (D ∪ vis) = D ∪ ({[u]} ∪ vis)) as -> by set_solver.
        apply tryEdges_skip_dead; [| |eapply dead_grows; [exact Hd|set_solver]|done].
        -- intros e vis0 r0 vis0' H1. by apply dfs_grows in H1 as [? _].
        -- intros e vis0 r0 vis0'. apply IH.
Qed.
End DeadValues.

(** ** What the first pass tracks *)

(** The three name tests of the first pass, read off a call: whether it
    creates an arena, and the arena argument of an allocate call and of a
    Free() call. *)
Definition isNewArenaCall (heap : Heap) (v : Value) : bool :=
  match shape heap v with
  | Some (Call c) =>
      match StaticCallee c with
      | Some callee => Contains (String_ callee) "arena.NewArena"%string
      | None => false
      end
  | _ => false
  end.

Definition allocArg (heap : Heap) (v : Value) : option Value :=
  match shape heap v with
  | Some (Call c) =>
      match StaticCallee c with
      | Some callee =>
          if Contains (String_ callee) "arena.New["%string then head (Args c) else None
      | None => None
      end
  | _ => None
  end.

Definition freeArg (heap : Heap) (v : Value) : option Value :=
  match shape heap v with
  | Some (Call c) =>
      match StaticCallee c with
      | Some callee =>
          if Contains (String_ callee) ".Free"%string
             || String.eqb (Name callee) "Free"%string
          then head (Args c) else None
      | None => None
      end
  | _ => None
  end.

Section TrackingFacts.
Variable heap : Heap.

Lemma arenas_trackInstr t i :
  arenas (trackInstr heap t i) =
  if isNewArenaCall heap i then <[i := mkArenaInfo i]> (arenas t) else arenas t.
Proof.
  unfold trackInstr, isNewArenaCall.
  destruct (shape heap i) as [[c|X|X|X I|Edges|X| |Ad Vl|Rs|rs]|]; try done.
  by destruct (StaticCallee c).
Qed.

Lemma allocations_trackInstr_view t i :
  allocations (trackInstr heap t i) =
  match allocArg heap i with
  | Some a =>
      match arenas (trackInstr heap t i) !! a with
      | Some info => <[i := mkAllocInfo info i (posOf heap i)]> (allocations t)
      | None => allocations t
      end
  | None => allocations t
  end.
Proof.
  unfold trackInstr, allocArg.
  destruct (shape heap i) as [[c|X|X|X I|Edges|X| |Ad Vl|Rs|rs]|]; try done.
  destruct (StaticCallee c) as [callee|]; [|done]. simpl. unfold trackNew.
  destruct (Contains (String_ callee) "arena.New["); simpl; [|done].
  by destruct (Args c).
Qed.

Lemma freeInstrs_trackInstr_view t i :
  freeInstrs (trackInstr heap t i) =
  match freeArg heap i with
  | Some a =>
      match arenas (trackInstr heap t i) !! a with
      | Some info => <[i := a]> (freeInstrs t)
      | None => freeInstrs t
      end
  | None => freeInstrs t
  end.
Proof.
  unfold trackInstr, freeArg.
  destruct (shape heap i) as [[c|X|X|X I|Edges|X| |Ad Vl|Rs|rs]|]; try done.
  destruct (StaticCallee c) as [callee|]; [|done]. simpl. unfold trackFree.
  destruct (Args c) as [|a rest]; simpl.
  - destruct (Contains _ _); simpl; [done|]. rewrite andb_false_r.
    by destruct (String.eqb _ _).
  - rewrite andb_true_r.
    destruct (Contains (String_ callee) ".Free" || String.eqb (Name callee) "Free"); [|done].
    by destruct (trackNewArena i callee (arenas t) !! a).
Qed.

Lemma arenas_foldl instrs : ∀ t v,
  arenas (foldl (trackInstr heap) t instrs) !! v =
  if bool_decide (v ∈ instrs) && isNewArenaCall heap v
  then Some (mkArenaInfo v) else arenas t !! v.
Proof.
  induction instrs as [|i instrs IH]; intros t v; simpl; [done|].
  rewrite IH, arenas_trackInstr.
  destruct (decide (v ∈ instrs)) as [Hin|Hnin].
  - rewrite (bool_decide_eq_true_2 _ Hin).
    rewrite (bool_decide_eq_true_2 (v ∈ i :: instrs)) by set_solver. simpl.
    destruct (isNewArenaCall heap v) eqn:Hv; [done|].
    destruct (isNewArenaCall heap i) eqn:Hi; [|done].
    apply lookup_insert_ne. intros ->. congruence.
  - rewrite (bool_decide_eq_false_2 _ Hnin). simpl.
    destruct (decide (v = i)) as [->|Hne].
    + rewrite (bool_decide_eq_true_2 (i ∈ i :: instrs)) by set_solver. simpl.
      destruct (isNewArenaCall heap i); [apply lookup_insert_eq|done].
    + rewrite (bool_decide_eq_false_2 (v ∈ i :: instrs)) by set_solver. simpl.
      destruct (isNewArenaCall heap i); [|done]. by apply lookup_insert_ne.
Qed.

Lemma snoc_split (l : list Value) i pre k post :
  l ++ [i] = pre ++ k :: post →
  (post = [] ∧ k = i ∧ pre = l) ∨ ∃ post', post = post' ++ [i] ∧ l = pre ++ k :: post'.
Proof.
  destruct post as [|x post _] using rev_ind; intros H.
  - left. change (pre ++ [k]) with (pre ++ [k]) in H.
    apply app_inj_tail in H as [-> ->]. done.
  - right. exists post.
    change (pre ++ k :: post ++ [x]) with (pre ++ (k :: post) ++ [x]) in H.
    rewrite app_assoc in H. apply app_inj_tail in H as [-> ->]. done.
Qed.

(** A map of the first pass that gets an entry at an instruction when the
    instruction names an arena tracked at that time. *)
Section Entries.
Context {B : Type}.
Variable arg : Value → option Value.
Variable proj : Tracking → gmap Value B.
Variable entry : Value → arenaInfo → Value → B.
Hypothesis proj_empty : proj noTracking = ∅.
Hypothesis proj_trackInstr : ∀ t i,
  proj (trackInstr heap t i) =
  match arg i with
  | Some a =>
      match arenas (trackInstr heap t i) !! a with
      | Some info => <[i := entry a info i]> (proj t)
      | None => proj t
      end
  | None => proj t
  end.

Definition recordedAt (instrs : list Value) (k : Value) (b : B) : Prop :=
  ∃ a pre post, instrs = pre ++ k :: post ∧ arg k = Some a
    ∧ a ∈ pre ++ [k] ∧ isNewArenaCall heap a = true
    ∧ b = entry a (mkArenaInfo a) k.

Lemma recordedAt_snoc_other instrs i k b :
  k ≠ i → recordedAt (instrs ++ [i]) k b ↔ recordedAt instrs k b.
Proof.
  intros Hne. split.
  - intros (a & pre & post & Hl & ? & ? & ? & ?).
    apply snoc_split in Hl as [(_ & ? & _)|(post' & -> & ->)]; [done|].
    by exists a, pre, post'.
  - intros (a & pre & post & -> & ? & ? & ? & ?).
    exists a, pre, (post ++ [i]). by rewrite <- app_assoc.
Qed.

Lemma entries_foldl instrs k b :
  proj (foldl (trackInstr heap) noTracking instrs) !! k = Some b ↔ recordedAt instrs k b.
Proof.
  revert k b. induction instrs as [|i instrs IH] using rev_ind; intros k b.
  - simpl. rewrite proj_empty, lookup_empty. split; [done|].
    intros (a & pre & post & Hl & _). by destruct pre.
  - rewrite foldl_app. simpl. rewrite proj_trackInstr.
    pose proof (arenas_foldl (instrs ++ [i]) noTracking) as Har.
    rewrite foldl_app in Har. simpl in Har.
    destruct (arg i) as [a|] eqn:Harg.
    + specialize (Har a). rewrite lookup_empty in Har. rewrite Har.
      destruct (bool_decide (a ∈ instrs ++ [i]) && isNewArenaCall heap a) eqn:Ha.
      * apply andb_true_iff in Ha as [Hin%bool_decide_eq_true Hnew].
        destruct (decide (k = i)) as [->|Hne].
        -- rewrite lookup_insert_eq. split.
           ++ intros [= <-]. by exists a, instrs, [].
           ++ intros (a' & pre & post & _ & Harg' & _ & _ & ->). congruence.
        -- rewrite lookup_insert_ne by done.
           by rewrite IH, recordedAt_snoc_other.
      * rewrite IH. destruct (decide (k = i)) as [->|Hne];
          [|by rewrite recordedAt_snoc_other].
        split.
        -- intros (a' & pre & post & -> & ? & ? & ? & ?).
           exists a', pre, (post ++ [i]). by rewrite <- app_assoc.
        -- intros (a' & pre & post & Hl & Harg' & Hin & Hnew & ->).
           apply snoc_split in Hl as [(-> & _ & ->)|(post' & -> & ->)].
           ++ assert (a' = a) as -> by congruence.
              apply andb_false_iff in Ha as [Ha|Ha]; [|congruence].
              by apply bool_decide_eq_false in Ha.
           ++ by exists a', pre, post'.
    + rewrite IH. destruct (decide (k = i)) as [->|Hne];
        [|by rewrite recordedAt_snoc_other].
      split.
      * intros (a' & pre & post & -> & ? & ? & ? & ?).
        exists a', pre, (post ++ [i]). by rewrite <- app_assoc.
      * intros (a' & pre & post & Hl & Harg' & _). congruence.
Qed.
End Entries.
End TrackingFacts.

(** The arenas tracked by the first pass are exactly the calls of the
    stream whose static callee has "arena.NewArena" in its name, each
    entered under itself. *)
Theorem arenas_are_the_NewArena_calls (heap : Heap) (blocks : list BasicBlock)
    (v : Value) (info : arenaInfo) :
  arenas (firstPass heap blocks) !! v = Some info ↔
  info = mkArenaInfo v ∧ v ∈ stream blocks ∧ isNewArenaCall heap v = true.
Proof.
  unfold firstPass. rewrite arenas_foldl. simpl. rewrite lookup_empty.
  destruct (decide (v ∈ stream blocks)) as [Hin|Hnin].
  - rewrite (bool_decide_eq_true_2 _ Hin). simpl.
    destruct (isNewArenaCall heap v); split; try done.
    + by intros [= <-].
    + by intros (-> & _ & _).
    + by intros (_ & _ & ?).
  - rewrite (bool_decide_eq_false_2 _ Hnin). simpl. split; [done|].
    by intros (_ & ? & _).
Qed.

(** An allocate call has an allocation entry exactly when, at one of its
    occurrences in the stream, its first argument is an arena-creating call
    met before it (or the call itself); the entry names that arena, the
    call and the position of the call. *)
Theorem allocations_are_owned (heap : Heap) (blocks : list BasicBlock)
    (call : Value) (ai : allocInfo) :
  allocations (firstPass heap blocks) !! call = Some ai ↔
  ∃ a pre post, stream blocks = pre ++ call :: post
    ∧ allocArg heap call = Some a
    ∧ a ∈ pre ++ [call]
    ∧ isNewArenaCall heap a = true
    ∧ ai = mkAllocInfo (mkArenaInfo a) call (posOf heap call).
Proof.
  unfold firstPass.
  apply (entries_foldl heap (allocArg heap) allocations
           (λ _ info i, mkAllocInfo info i (posOf heap i))); [done|].
  apply allocations_trackInstr_view.
Qed.

(** A call is a tracked Free() exactly when its name passes the Free test
    and, at one of its occurrences in the stream, its first argument is an
    arena-creating call met before it; the arena freed is that argument. *)
Theorem frees_target_tracked_arenas (heap : Heap) (blocks : list BasicBlock)
    (instr a : Value) :
  freeInstrs (firstPass heap blocks) !! instr = Some a ↔
  ∃ pre post, stream blocks = pre ++ instr :: post
    ∧ freeArg heap instr = Some a
    ∧ a ∈ pre ++ [instr]
    ∧ isNewArenaCall heap a = true.
Proof.
  unfold firstPass.
  rewrite (entries_foldl heap (freeArg heap) freeInstrs (λ a' _ _, a'));
    [|done|apply freeInstrs_trackInstr_view].
  unfold recordedAt. split.
  - intros (a' & pre & post & ? & ? & ? & ? & ->). by exists pre, post.
  - intros (pre & post & ? & ? & ? & ?). by exists a, pre, post.
Qed.

Lemma allocations_keys (heap : Heap) (blocks : list BasicBlock) (v : Value) (ai : allocInfo) :
  allocations (firstPass heap blocks) !! v = Some ai →
  ∃ a, allocArg heap v = Some a ∧ a ∈ stream blocks ∧ isNewArenaCall heap a = true.
Proof.
  unfold firstPass. intros H.
  apply (entries_foldl heap (allocArg heap) allocations
           (λ _ info i, mkAllocInfo info i (posOf heap i))) in H;
    [|done|apply allocations_trackInstr_view].
  destruct H as (a & pre & post & Hl & Harg & Hin & Hnew & _).
  exists a. split; [done|]. split; [|done]. rewrite Hl.
  apply elem_of_app in Hin as [Hin|Hin]; [set_solver|].
  apply list_elem_of_singleton in Hin as ->. set_solver.
Qed.

Lemma allocations_not_call (heap : Heap) (blocks : list BasicBlock) (v : Value) :
  (∀ c, shape heap v ≠ Some (Call c)) →
  allocations (firstPass heap blocks) !! v = None.
Proof.
  intros Hs. destruct (allocations (firstPass heap blocks) !! v) as [ai|] eqn:E; [|done].
  apply allocations_keys in E as (a & Harg & _). unfold allocArg in Harg.
  destruct (shape heap v) as [[c|X|X|X I|Edges|X| |Ad Vl|Rs|rs]|]; try done.
  by destruct (Hs c).
Qed.

(** ** The resolver as reachability *)

(** [findAllocation] answers with the entry of a value the queried value is
    derived from, and answers none exactly when no such value has an
    entry. *)
Theorem findAllocation_sound_complete (heap : Heap) (allocations : gmap Value allocInfo)
    (storesTo : gmap Value Value) (val : Value) :
  (∀ alloc, findAllocation heap allocations storesTo val = Some alloc →
     ∃ w, derivedFrom heap storesTo val w ∧ allocations !! w = Some alloc)
  ∧ (findAllocation heap allocations storesTo val = None ↔
     ∀ w, derivedFrom heap storesTo val w → allocations !! w = None).
Proof.
  split; [intros alloc; apply findAllocation_Some|apply findAllocation_None].
Qed.

Lemma provSuccs_inside (heap : Heap) (storesTo : gmap Value Value) (v X : Value) :
  provSuccs heap storesTo v = [X] → v ∈ dom heap.
Proof.
  intros H. destruct (decide (v ∈ dom heap)) as [|Hout]; [done|].
  by rewrite (provSuccs_outside _ _ _ Hout) in H.
Qed.

(** A value with a single value to recurse into resolves as that value
    does. *)
Lemma findAllocation_single (heap : Heap) (allocations : gmap Value allocInfo)
    (storesTo : gmap Value Value) (v X : Value) :
  provSuccs heap storesTo v = [X] → allocations !! v = None →
  findAllocation heap allocations storesTo v = findAllocation heap allocations storesTo X.
Proof.
  intros Hsuccs Hv.
  destruct (decide (X = v)) as [->|Hne]; [done|].
  set (hit := λ w : Value, allocations !! w).
  set (succs := provSuccs heap storesTo).
  set (n := size heap).
  pose proof (provSuccs_inside _ _ _ _ Hsuccs) as Hdom.
  (* the query on [X] *)
  destruct (findAllocation_run heap allocations storesTo X) as (visA & HA).
  rewrite findAllocationRec_dfs in HA. fold hit succs n in HA.
  (* the query on [v], which recurses into [X] with [v] visited *)
  destruct (findAllocation_run heap allocations storesTo v) as (visB & HB).
  rewrite findAllocationRec_dfs in HB. fold hit succs n in HB.
  rewrite dfs_unfold in HB.
  destruct (decide (v ∈ (∅ : gset Value))) as [|_]; [set_solver|].
  unfold hit at 1 in HB. rewrite Hv in HB. unfold succs at 2 in HB.
  rewrite Hsuccs, tryEdges_one in HB.
  assert (({[v]} ∪ ∅ : gset Value) = {[v]}) as Hv1 by set_solver.
  rewrite Hv1 in HB.
  apply (dfs_more_fuel _ _ n (S n)) in HB; [|lia].
  (* both unfold to the same loop over the successors of [X] *)
  rewrite dfs_unfold in HA, HB.
  destruct (decide (X ∈ (∅ : gset Value))) as [|_]; [set_solver|].
  destruct (decide (X ∈ ({[v]} : gset Value))) as [|_]; [set_solver|].
  destruct (hit X) as [a|]; [congruence|].
  apply (tryEdges_skip_dead hit succs {[v]}) in HA.
  - assert (({[v]} ∪ ({[X]} ∪ ∅) : gset Value) = {[X]} ∪ {[v]}) as Heq by set_solver.
    rewrite Heq in HA. congruence.
  - intros e vis r vis' H. by apply dfs_grows in H as [? _].
  - intros e vis r vis'. apply dfs_skip_dead.
  - intros u Hu. apply elem_of_singleton in Hu as ->. split; [exact Hv|].
    intros w Hw. unfold succs in Hw. rewrite Hsuccs in Hw. set_solver.
Qed.

(** Member-level granularity is not tracked: the address of a field or of
    an element of a value, an interface made of it, and a load from it when
    nothing was stored to it, resolve exactly as the value itself. *)
Theorem resolve_through_member (heap : Heap) (allocations : gmap Value allocInfo)
    (storesTo : gmap Value Value) (v X : Value) :
  allocations !! v = None →
  shape heap v = Some (FieldAddr X)
  ∨ (∃ Index, shape heap v = Some (IndexAddr X Index))
  ∨ shape heap v = Some (MakeInterface X)
  ∨ (shape heap v = Some (UnOp X) ∧ storesTo !! X = None) →
  findAllocation heap allocations storesTo v = findAllocation heap allocations storesTo X.
Proof.
  intros Hv Hshape. apply findAllocation_single; [|done]. unfold provSuccs.
  destruct Hshape as [Hs|[[I Hs]|[Hs|[Hs Hst]]]]; rewrite Hs; [done..|].
  by rewrite Hst.
Qed.

Lemma resolve_through_member_witness :
  allocations (firstPass heapReturns blocksValueReturn) !! 3%positive = None
  ∧ findAllocation heapReturns (allocations (firstPass heapReturns blocksValueReturn))
      (storesTo (firstPass heapReturns blocksValueReturn)) 3%positive
    = findAllocation heapReturns (allocations (firstPass heapReturns blocksValueReturn))
      (storesTo (firstPass heapReturns blocksValueReturn)) 2%positive.
Proof.
  assert (allocations (firstPass heapReturns blocksValueReturn) !! 3%positive = None) as Ha
    by (vm_compute; reflexivity).
  assert (shape heapReturns 3%positive = Some (FieldAddr 2%positive)) as Hs
    by (vm_compute; reflexivity).
  split; [exact Ha|].
  exact (resolve_through_member heapReturns
           (allocations (firstPass heapReturns blocksValueReturn))
           (storesTo (firstPass heapReturns blocksValueReturn))
           3%positive 2%positive Ha (or_introl Hs)).
Defined.

(** ** Interface boxing *)

(** [interfaceEscape]: the allocation [t2] boxed into the interface [t3],
    which [t4] returns and [t6] stores to the global [t5]. *)
Definition heapInterface : Heap :=
  list_to_map [
    (1%positive, objNewArena 10);
    (2%positive, objNew 1%positive 20);
    (3%positive, mkObject (MakeInterface 2%positive) TInterface 30);
    (4%positive, mkObject (Return [3]%positive) TInvalid 40);
    (5%positive, mkObject Global (TPointer TInterface) 0);
    (6%positive, mkObject (Store 5%positive 3%positive) TInvalid 60)].

Definition blocksInterfaceReturn : list BasicBlock := [mkBlock [1; 2; 3; 4]%positive].
Definition blocksInterfaceStore : list BasicBlock := [mkBlock [1; 2; 3; 6]%positive].

Example interface_return_and_store :
  checkFunctionFinal2 heapInterface blocksInterfaceReturn = []
  ∧ checkFunctionFinal2 heapInterface blocksInterfaceStore = [mkDiag 60 EscapesToGlobal 20].
Proof. vm_compute. done. Qed.

(** C1 (the code departs from it): the result [t3] of [interfaceEscape] is
    the allocation [t2] boxed into an interface; its provenance resolves to
    [t2], its type is a reference type but no type [isPointerType] accepts,
    and the return is not reported, while the return of [t2] itself is. *)
Theorem C1_interface_return_not_reported :
  shape heapInterface 3%positive = Some (MakeInterface 2%positive)
  ∧ typeOf heapInterface 3%positive = TInterface
  ∧ isPointerType (typeOf heapInterface 3%positive) = false
  ∧ resolve heapInterface (firstPass heapInterface blocksInterfaceReturn) 3%positive
      = Some (mkAllocInfo (mkArenaInfo 1%positive) 2%positive 20)
  ∧ checkFunctionFinal2 heapInterface blocksInterfaceReturn = []
  ∧ checkFunctionFinal2 heapReturns blocksDirectReturn = [mkDiag 50 EscapesViaReturn 20].
Proof. vm_compute. done. Qed.

(** An allocation boxed into an interface resolves to the allocation, so a
    store of the interface to a global and a use after Free() are seen;
    returning the interface is never reported, for an interface type is no
    pointer type. *)
Theorem boxed_allocation (heap : Heap) (blocks : list BasicBlock)
    (v X : Value) (alloc : allocInfo) :
  let t := firstPass heap blocks in
  shape heap v = Some (MakeInterface X) →
  typeOf heap v = TInterface →
  resolve heap t X = Some alloc →
  resolve heap t v = Some alloc
  ∧ (∀ pos, checkResult heap t pos v = [])
  ∧ (∀ instr G, shape heap instr = Some (Store G v) → isGlobalVar heap G = true →
       checkGlobalStore heap t instr
       = [mkDiag (posOf heap instr) EscapesToGlobal (allocPos alloc)])
  ∧ (∀ freed, value (arena alloc) ∈ freed →
       offending heap t freed (Some v) = Some alloc).
Proof.
  intros t Hs Hty HX.
  assert (resolve heap t v = Some alloc) as Hv.
  { unfold resolve in *. rewrite <- HX. apply findAllocation_single.
    - unfold provSuccs. by rewrite Hs.
    - apply allocations_not_call. intros c. by rewrite Hs. }
  split; [exact Hv|]. split; [|split].
  - intros pos. unfold checkResult. by rewrite Hv, Hty.
  - intros instr G Hi HG. unfold checkGlobalStore. by rewrite Hi, HG, Hv.
  - intros freed Hin. unfold offending. rewrite Hv.
    by destruct (decide (value (arena alloc) ∈ freed)).
Qed.

Lemma boxed_allocation_witness :
  shape heapInterface 3%positive = Some (MakeInterface 2%positive)
  ∧ typeOf heapInterface 3%positive = TInterface
  ∧ resolve heapInterface (firstPass heapInterface blocksInterfaceStore) 3%positive
    = Some (mkAllocInfo (mkArenaInfo 1%positive) 2%positive 20).
Proof.
  assert (shape heapInterface 3%positive = Some (MakeInterface 2%positive)) as Hs
    by (vm_compute; reflexivity).
  assert (typeOf heapInterface 3%positive = TInterface) as Hty
    by (vm_compute; reflexivity).
  assert (resolve heapInterface (firstPass heapInterface blocksInterfaceStore) 2%positive
          = Some (mkAllocInfo (mkArenaInfo 1%positive) 2%positive 20)) as HX
    by (vm_compute; reflexivity).
  split; [exact Hs|]. split; [exact Hty|].
  exact (proj1 (boxed_allocation heapInterface blocksInterfaceStore
                  3%positive 2%positive _ Hs Hty HX)).
Defined.

(** ** Functions without arenas *)

Lemma sweep_nothing (heap : Heap) (t : Tracking) :
  (∀ v, resolve heap t v = None) →
  ∀ instrs freed, sweep heap t freed instrs = [].
Proof.
  intros Hnone. induction instrs as [|i instrs IH]; intros freed; simpl; [done|].
  rewrite IH, app_nil_r. unfold checkInstr.
  assert (checkReturn heap t i = []) as ->.
  { unfold checkReturn.
    destruct (shape heap i) as [[c|X|X|X I|Edges|X| |Ad Vl|Rs|rs]|]; try done.
    induction Rs as [|r Rs IHr]; simpl; [done|].
    rewrite IHr, app_nil_r. unfold checkResult. by rewrite Hnone. }
  assert (checkGlobalStore heap t i = []) as ->.
  { unfold checkGlobalStore.
    destruct (shape heap i) as [[c|X|X|X I|Edges|X| |Ad Vl|Rs|rs]|]; try done.
    rewrite Hnone. by destruct (isGlobalVar heap Ad). }
  rewrite !app_nil_r. destruct (decide (markFreed t freed i = ∅)); [done|].
  apply checkOperands_none. intros [o|] _; [|done]. simpl. by rewrite Hnone.
Qed.

(** A function in which no call creates an arena gets no diagnostic at all,
    whatever it allocates, frees, stores or returns. *)
Theorem no_arena_no_diagnostic (heap : Heap) (blocks : list BasicBlock) :
  (∀ v, v ∈ stream blocks → isNewArenaCall heap v = false) →
  checkFunctionFinal2 heap blocks = [].
Proof.
  intros Hno. unfold checkFunctionFinal2.
  assert (∀ v, resolve heap (firstPass heap blocks) v = None) as Hnone.
  { intros v. apply findAllocation_None. intros w _.
    destruct (allocations (firstPass heap blocks) !! w) as [ai|] eqn:E; [|done].
    apply allocations_keys in E as (a & _ & Hin & Hnew).
    rewrite (Hno a Hin) in Hnew. done. }
  revert Hnone. generalize (firstPass heap blocks). clear Hno. intros t Hnone.
  induction blocks as [|b bs IH]; simpl; [done|].
  rewrite IH, app_nil_r. by apply sweep_nothing.
Qed.

Lemma no_arena_no_diagnostic_witness :
  checkFunctionFinal2 heapHelper blocksHelper = [].
Proof.
  apply no_arena_no_diagnostic. intros v Hin.
  apply elem_of_cons in Hin as [->|Hin]; [vm_compute; reflexivity|].
  apply list_elem_of_singleton in Hin as ->. vm_compute. reflexivity.
Defined.

(** ** The earlier analyzer *)

(** [escapesViaReturn] is true exactly when the value is an allocate call
    or is derived from one through loads, field addresses, element
    addresses and phis. *)
Theorem escapesViaReturn_iff (heap : Heap) (allocToArena : gmap Value Value) (val : Value) :
  escapesViaReturn heap allocToArena val = true ↔
  ∃ w, derivedFrom1 heap val w ∧ is_Some (allocToArena !! w).
Proof.
  split; [apply escapesViaReturn_true|].
  intros (w & Hw & [a Ha]).
  destruct (escapesViaReturn heap allocToArena val) eqn:E; [done|].
  assert (escapesViaReturn heap allocToArena val = true → False) as Hcontra
    by (rewrite E; done).
  destruct (allocToArena !! val) as [a0|] eqn:Hval.
  { unfold escapesViaReturn in E. by rewrite Hval in E. }
  unfold escapesViaReturn in E. rewrite Hval in E.
  destruct (tracesToArenaAlloc_terminates heap allocToArena (S (size heap)) val ∅
              (heap_fuel_enough heap ∅)) as (b & vis & Ht).
  rewrite Ht in E. subst b.
  rewrite tracesToArenaAlloc_dfs in Ht.
  destruct (dfs _ _ (S (size heap)) val ∅) as [[[[]|] vis0]|] eqn:E0; try done.
  pose proof (dfs_none_complete _ _ _ _ _ E0 w Hw) as Hnone. simpl in Hnone.
  by rewrite Ha in Hnone.
Qed.

Lemma provSuccs1_sub (heap : Heap) (storesTo : gmap Value Value) (u w : Value) :
  w ∈ provSuccs1 heap u → w ∈ provSuccs heap storesTo u.
Proof.
  unfold provSuccs1, provSuccs.
  destruct (shape heap u) as [[c|X|X|X I|Edges|X| |Ad Vl|Rs|rs]|]; try done.
  - destruct (storesTo !! X); set_solver.
  - by intros ?%elem_of_nil.
Qed.

(** The final resolver follows every edge the earlier one follows: what
    [escapesViaReturn] traces to an allocate call, [findAllocation] resolves,
    when it tracks that call. *)
Theorem final_resolver_extends_earlier (heap : Heap) (allocToArena : gmap Value Value)
    (allocations : gmap Value allocInfo) (storesTo : gmap Value Value) (val : Value) :
  (∀ w, is_Some (allocToArena !! w) → is_Some (allocations !! w)) →
  escapesViaReturn heap allocToArena val = true →
  is_Some (findAllocation heap allocations storesTo val).
Proof.
  intros Hsub He. apply escapesViaReturn_true in He as (w & Hw & Hsome).
  apply findAllocation_is_Some. exists w. split; [|by apply Hsub].
  clear Hsome. induction Hw as [|x y z Hxy _ IH]; [apply rtc_refl|].
  eapply rtc_l; [|exact IH]. by apply provSuccs1_sub.
Qed.

Lemma final_resolver_extends_earlier_witness :
  escapesViaReturn heapReturns {[2%positive := 1%positive]} 4%positive = true
  ∧ is_Some (findAllocation heapReturns
               (allocations (firstPass heapReturns blocksValueReturn))
               (storesTo (firstPass heapReturns blocksValueReturn)) 4%positive).
Proof.
  assert (escapesViaReturn heapReturns {[2%positive := 1%positive]} 4%positive = true) as He
    by (vm_compute; reflexivity).
  split; [exact He|].
  refine (final_resolver_extends_earlier heapReturns {[2%positive := 1%positive]}
            _ _ 4%positive _ He).
  intros w [a Ha]. destruct (decide (w = 2%positive)) as [->|Hne].
  - eexists. vm_compute. reflexivity.
  - rewrite lookup_singleton_ne in Ha by done. discriminate Ha.
Defined.

Lemma allocToArena_foldl_other (heap : Heap) (call : Value) instrs : ∀ acc,
  call ∉ instrs →
  (foldl (trackInstr1 heap) acc instrs).2 !! call = acc.2 !! call.
Proof.
  induction instrs as [|i instrs IH]; intros acc Hnin; simpl; [done|].
  rewrite IH by set_solver. apply trackInstr1_other. set_solver.
Qed.

Lemma trackInstr1_self (heap : Heap) acc (i : Value) :
  (trackInstr1 heap acc i).2 !! i =
  match allocArg heap i with
  | Some a => Some a
  | None => acc.2 !! i
  end.
Proof.
  unfold trackInstr1, allocArg.
  destruct (shape heap i) as [[c|X|X|X I|Edges|X| |Ad Vl|Rs|rs]|]; try done.
  destruct (StaticCallee c) as [callee|]; [|done]. simpl.
  destruct (Contains (String_ callee) "arena.New["); simpl; [|done].
  destruct (Args c) as [|a rest]; simpl; [done|]. apply lookup_insert_eq.
Qed.

(** The earlier first pass records every allocate call of the stream under
    its first argument, tracked arena or not, and nothing else. *)
Theorem earlier_pass_records_every_allocate (heap : Heap) (blocks : list BasicBlock)
    (call a : Value) :
  (firstPass1 heap blocks).2 !! call = Some a ↔
  call ∈ stream blocks ∧ allocArg heap call = Some a.
Proof.
  unfold firstPass1.
  assert (∀ instrs acc,
            (foldl (trackInstr1 heap) acc instrs).2 !! call =
            if bool_decide (call ∈ instrs)
            then match allocArg heap call with
                 | Some a' => Some a'
                 | None => acc.2 !! call
                 end
            else acc.2 !! call) as H.
  { induction instrs as [|i instrs IH]; intros acc; simpl; [done|].
    rewrite IH. destruct (decide (call = i)) as [->|Hne].
    - rewrite (bool_decide_eq_true_2 (i ∈ i :: instrs)) by set_solver.
      rewrite trackInstr1_self.
      destruct (bool_decide (i ∈ instrs)); by destruct (allocArg heap i).
    - rewrite trackInstr1_other by done.
      destruct (decide (call ∈ instrs)) as [Hin|Hnin].
      + rewrite (bool_decide_eq_true_2 _ Hin).
        by rewrite (bool_decide_eq_true_2 (call ∈ i :: instrs)) by set_solver.
      + rewrite (bool_decide_eq_false_2 _ Hnin).
        by rewrite (bool_decide_eq_false_2 (call ∈ i :: instrs)) by set_solver. }
  rewrite H. simpl. rewrite lookup_empty.
  destruct (decide (call ∈ stream blocks)) as [Hin|Hnin].
  - rewrite (bool_decide_eq_true_2 _ Hin).
    destruct (allocArg heap call) as [a'|]; naive_solver.
  - rewrite (bool_decide_eq_false_2 _ Hnin). naive_solver.
Qed.

(** What [checkFunctionFinal] reports: a return escape for every result of
    a return that traces to an allocate call, of whatever type, and a
    global escape for every store of such a value to a global. *)
Theorem earlier_reports (heap : Heap) (blocks : list BasicBlock) (r : Report) :
  let allocToArena := (firstPass1 heap blocks).2 in
  r ∈ checkFunctionFinal heap blocks ↔
  ∃ instr, instr ∈ stream blocks ∧
    ((∃ Results result, shape heap instr = Some (Return Results)
        ∧ result ∈ Results
        ∧ escapesViaReturn heap allocToArena result = true
        ∧ r = mkReport (posOf heap instr) MayEscapeViaReturn)
     ∨ (∃ Addr Val, shape heap instr = Some (Store Addr Val)
        ∧ isGlobalVar heap Addr = true
        ∧ escapesViaStore heap allocToArena Val = true
        ∧ r = mkReport (posOf heap instr) MayEscapeToGlobal)).
Proof.
  intros allocToArena. unfold checkFunctionFinal. fold allocToArena.
  rewrite elem_of_flat_map. split.
  - intros (instr & Hin & Hr). exists instr. split; [done|].
    unfold checkInstr1 in Hr. apply elem_of_app in Hr as [Hr|Hr].
    + left. destruct (shape heap instr) as [[c|X|X|X I|Edges|X| |Ad Vl|Rs|rs]|];
        try by apply elem_of_nil in Hr.
      apply elem_of_flat_map in Hr as (result & Hres & Hr).
      destruct (escapesViaReturn heap allocToArena result) eqn:E;
        [|by apply elem_of_nil in Hr].
      apply list_elem_of_singleton in Hr as ->. by exists Rs, result.
    + right. destruct (shape heap instr) as [[c|X|X|X I|Edges|X| |Ad Vl|Rs|rs]|];
        try by apply elem_of_nil in Hr.
      destruct (isGlobalVar heap Ad) eqn:HG; [|by apply elem_of_nil in Hr].
      destruct (escapesViaStore heap allocToArena Vl) eqn:E;
        [|by apply elem_of_nil in Hr].
      apply list_elem_of_singleton in Hr as ->. by exists Ad, Vl.
  - intros (instr & Hin & [(Rs & result & Hs & Hres & He & ->)
                          |(Ad & Vl & Hs & HG & He & ->)]);
      exists instr; (split; [done|]); unfold checkInstr1; rewrite Hs.
    + apply elem_of_app. left. apply elem_of_flat_map. exists result.
      split; [done|]. rewrite He. by apply list_elem_of_singleton.
    + apply elem_of_app. right. rewrite HG, He. by apply list_elem_of_singleton.
Qed.

(** ** The store map, both ways *)

(** The store map has an entry for an address exactly when some store of
    the stream stores to it, and the entry is the value of the last one. *)
Theorem store_map_entries (heap : Heap) (blocks : list BasicBlock) (Addr Val : Value) :
  storesTo (firstPass heap blocks) !! Addr = Some Val ↔
  ∃ pre s post, stream blocks = pre ++ s :: post
    ∧ shape heap s = Some (Store Addr Val)
    ∧ ∀ s' a v, s' ∈ post → shape heap s' = Some (Store a v) → a ≠ Addr.
Proof.
  unfold firstPass. split.
  - generalize (stream blocks). intros l.
    induction l as [|i l IH] using rev_ind; [simpl; by rewrite lookup_empty|].
    rewrite foldl_app. simpl. rewrite storesTo_trackInstr. intros H.
    assert (storesTo (foldl (trackInstr heap) noTracking l) !! Addr = Some Val →
            (∀ a v, shape heap i = Some (Store a v) → a ≠ Addr) →
            ∃ pre s post, l ++ [i] = pre ++ s :: post
              ∧ shape heap s = Some (Store Addr Val)
              ∧ ∀ s' a v, s' ∈ post → shape heap s' = Some (Store a v) → a ≠ Addr)
      as Hold.
    { intros Hl Hi. destruct (IH Hl) as (pre & s & post & -> & Hs & Hpost).
      exists pre, s, (post ++ [i]). split; [by rewrite <- app_assoc|]. split; [done|].
      intros s' a v Hin Hs'. apply elem_of_app in Hin as [Hin|Hin]; [by eapply Hpost|].
      apply list_elem_of_singleton in Hin as ->. by eapply Hi. }
    destruct (shape heap i) as [[c|X|X|X I|Edges|X| |Ad Vl|Rs|rs]|] eqn:Hs;
      try (apply Hold; [exact H|done]).
    destruct (decide (Ad = Addr)) as [->|Hne].
    + rewrite lookup_insert_eq in H. injection H as ->.
      exists l, i, []. split; [done|]. split; [done|]. intros s' a v Hin.
      by apply elem_of_nil in Hin.
    + rewrite lookup_insert_ne in H by done. apply Hold; [done|]. congruence.
  - intros (pre & s & post & -> & Hs & Hpost). by apply storesTo_last_store.
Qed.

(** ** Use-after-free reports, function-wide *)

Lemma checkOperands_elem (heap : Heap) (t : Tracking) pos freed rands d :
  d ∈ checkOperands heap t pos freed rands →
  ∃ operand alloc, Some operand ∈ rands ∧ resolve heap t operand = Some alloc
    ∧ value (arena alloc) ∈ freed
    ∧ d = mkDiag pos UseAfterFree (allocPos alloc).
Proof.
  induction rands as [|rand rands IH]; [by intros ?%elem_of_nil|].
  rewrite checkOperands_cons.
  destruct (offending heap t freed rand) as [alloc|] eqn:E.
  - intros ->%list_elem_of_singleton.
    apply offending_Some in E as (o & -> & ? & ?).
    exists o, alloc. split; [set_solver|done].
  - intros Hd. destruct (IH Hd) as (o & alloc & ? & ? & ? & ?).
    exists o, alloc. split; [set_solver|done].
Qed.

Lemma sweep_uaf_elem (heap : Heap) (t : Tracking) instrs : ∀ freed d,
  d ∈ sweep heap t freed instrs → dKind d = UseAfterFree →
  ∃ instr operand alloc, instr ∈ instrs
    ∧ Some operand ∈ operandsOf heap instr
    ∧ resolve heap t operand = Some alloc
    ∧ (value (arena alloc) ∈ freed ∨ releasedIn t instrs (value (arena alloc)))
    ∧ d = mkDiag (posOf heap instr) UseAfterFree (allocPos alloc).
Proof.
  induction instrs as [|i instrs IH]; intros freed d Hd Hk; simpl in Hd;
    [by apply elem_of_nil in Hd|].
  apply elem_of_app in Hd as [Hd|Hd].
  - assert (d ∈ ofKind UseAfterFree (checkInstr heap t (markFreed t freed i) i)) as Hd'
      by (by apply elem_of_ofKind).
    rewrite checkInstr_uaf in Hd'.
    destruct (decide (markFreed t freed i = ∅)); [by apply elem_of_nil in Hd'|].
    apply checkOperands_elem in Hd' as (o & alloc & Ho & Hr & Hf & ->).
    exists i, o, alloc. split; [set_solver|]. split; [done|]. split; [done|].
    split; [|done]. apply markFreed_spec in Hf as [Hf|Hf]; [by left|].
    right. exists i. split; [set_solver|done].
  - destruct (IH _ _ Hd Hk) as (instr & o & alloc & Hin & Ho & Hr & Hf & ->).
    exists instr, o, alloc. split; [set_solver|]. split; [done|]. split; [done|].
    split; [|done]. destruct Hf as [Hf|(rel & Hrel & Hfree)].
    + apply markFreed_spec in Hf as [Hf|Hf]; [by left|].
      right. exists i. split; [set_solver|done].
    + right. exists rel. split; [set_solver|done].
Qed.

(** Every use-after-free diagnostic of a function stands at an instruction
    one of whose operands resolves to an allocation, carries the position
    of that allocation, and has a tracked Free() of the arena of the
    allocation in the block of the instruction. *)
Theorem use_after_free_reports_are_local (heap : Heap) (blocks : list BasicBlock)
    (d : Diagnostic) :
  let t := firstPass heap blocks in
  d ∈ checkFunctionFinal2 heap blocks → dKind d = UseAfterFree →
  ∃ block instr operand alloc rel,
    block ∈ blocks ∧ instr ∈ Instrs block ∧ rel ∈ Instrs block
    ∧ freeInstrs t !! rel = Some (value (arena alloc))
    ∧ Some operand ∈ operandsOf heap instr
    ∧ resolve heap t operand = Some alloc
    ∧ d = mkDiag (posOf heap instr) UseAfterFree (allocPos alloc).
Proof.
  intros t Hd Hk. unfold checkFunctionFinal2 in Hd. fold t in Hd.
  apply elem_of_flat_map in Hd as (block & Hb & Hd).
  apply sweep_uaf_elem in Hd as (instr & o & alloc & Hin & Ho & Hr & Hf & ->); [|done].
  destruct Hf as [Hf|(rel & Hrel & Hfree)]; [set_solver|].
  by exists block, instr, o, alloc, rel.
Qed.

Lemma use_after_free_reports_are_local_witness :
  ∃ block instr operand alloc rel,
    block ∈ blocksUseAfterFree ∧ instr ∈ Instrs block ∧ rel ∈ Instrs block
    ∧ freeInstrs (firstPass heapUseAfterFree blocksUseAfterFree) !! rel
      = Some (value (arena alloc))
    ∧ Some operand ∈ operandsOf heapUseAfterFree instr
    ∧ resolve heapUseAfterFree (firstPass heapUseAfterFree blocksUseAfterFree) operand
      = Some alloc
    ∧ mkDiag 40 UseAfterFree 20
      = mkDiag (posOf heapUseAfterFree instr) UseAfterFree (allocPos alloc).
Proof.
  apply (use_after_free_reports_are_local heapUseAfterFree blocksUseAfterFree
           (mkDiag 40 UseAfterFree 20)); [|reflexivity].
  apply list_elem_of_In. vm_compute. auto.
Defined.

(** ** Pointer types *)

(** The type under the names of a type. *)
Fixpoint underlyingOf (t : Type_) : Type_ :=
  match t with
  | TNamed u => underlyingOf u
  | _ => t
  end.

(** [isPointerType] holds exactly of the pointer types and the named types
    that are pointer types underneath, however many names deep. *)
Theorem isPointerType_iff (t : Type_) :
  isPointerType t = true ↔ ∃ elem, underlyingOf t = TPointer elem.
Proof.
  induction t as [e _|u IH|n| |e _| | ]; simpl; try (split; [done|by intros [e' ?]]).
  - split; eauto.
  - exact IH.
Qed.
